(** * The consensus IP pool of natc (cmd/natc/ippool/consensusippool.go)

    A shallow embedding of the replicated allocation state machine: the
    per-peer domain/address maps, the allocation scan [unusedIPV4], the two
    command handlers [applyCheckoutAddr] and [applyMarkLastUsed], the raft
    entry point [Apply], the local reader [DomainForIP] with its retry
    loop, and the client calls [IPForDomain] and [markLastUsed].  Maps are
    stdpp [gmap]s, Go integers and instants are [Z].  For the determinism
    of replay the handlers are written a second time as programs over the
    effects of the package, and the two embeddings are proved to agree. *)

From stdpp Require Import gmap strings list fin_maps.
From Stdlib Require Import ZArith Lia.
From Equations Require Import Equations.

Local Open Scope Z_scope.

(** ** net/netip: the part of [netip.Addr] the pool relies on *)

Module netip.

(** [Addr.z]: [z0] marks the zero (invalid) Addr, [z4] an IPv4 address,
    [z6noz] an IPv6 address without zone.  Zoned IPv6 addresses never
    occur in the ranges of an IPSet, so they are left out. *)
Inductive zone := z0 | z4 | z6noz.

(** [Addr{addr uint128{hi, lo}, z}].  An IPv4 address a.b.c.d is stored
    IPv4-mapped: [hi = 0], [lo = 0xffff_0000_0000 + a.b.c.d]. *)
Record Addr := mkAddr { hi : Z; lo : Z; z : zone }.

Definition two64 : Z := 2 ^ 64.
Definition two32 : Z := 2 ^ 32.

(** The zero value [Addr{}]. *)
Definition zero : Addr := mkAddr 0 0 z0.

Definition AddrFrom4 (v : Z) : Addr := mkAddr 0 (0xffff00000000 + v) z4.

Definition IsValid (ip : Addr) : bool :=
  match z ip with z0 => false | _ => true end.

Definition Is4 (ip : Addr) : bool :=
  match z ip with z4 => true | _ => false end.

Definition BitLen (ip : Addr) : Z :=
  match z ip with z0 => 0 | z4 => 32 | z6noz => 128 end.

(** [Addr.Compare]: by bit length first, then by the 128-bit value. *)
Definition Compare (ip ip2 : Addr) : Z :=
  if BitLen ip <? BitLen ip2 then -1
  else if BitLen ip >? BitLen ip2 then 1
  else if hi ip <? hi ip2 then -1
  else if hi ip >? hi ip2 then 1
  else if lo ip <? lo ip2 then -1
  else if lo ip >? lo ip2 then 1
  else 0.

(** [uint128.addOne]: 64-bit add with carry into [hi]. *)
Definition addOne (h l : Z) : Z * Z :=
  let l' := (l + 1) mod two64 in
  let carry := (l + 1) / two64 in
  ((h + carry) mod two64, l').

(** [Addr.Next]: the following address, or the zero Addr on overflow. *)
Definition Next (ip : Addr) : Addr :=
  let '(h', l') := addOne (hi ip) (lo ip) in
  let ip' := mkAddr h' l' (z ip) in
  if Is4 ip' then
    if l' mod two32 =? 0 then zero else ip'
  else
    if (h' =? 0) && (l' =? 0) then zero else ip'.

#[global] Instance zone_eq_dec : EqDecision zone.
Proof. solve_decision. Defined.

#[global] Instance Addr_eq_dec : EqDecision Addr.
Proof. solve_decision. Defined.

Definition zone_to_nat (k : zone) : nat :=
  match k with z0 => 0%nat | z4 => 1%nat | z6noz => 2%nat end.

Definition zone_of_nat (n : nat) : zone :=
  match n with O => z0 | S O => z4 | _ => z6noz end.

#[global] Instance zone_countable : Countable zone.
Proof. by apply (inj_countable' zone_to_nat zone_of_nat); intros []. Defined.

#[global] Instance Addr_countable : Countable Addr.
Proof.
  by apply (inj_countable'
              (λ a, (hi a, lo a, z a))
              (λ t, mkAddr t.1.1 t.1.2 t.2)); intros [].
Defined.

End netip.

Export netip (Addr).

(** ** netipx: ranges of an IPSet *)

(** [netipx.IPRange{from, to}]; [IPSet.Ranges()] is the list of them. *)
Record IPRange := mkRange { From : Addr; To : Addr }.

(** ** Data model *)

(** Instants ([time.Time] compared with Before/After) and node ids. *)
Abbreviation Instant := Z.
Abbreviation NodeID := Z.

Definition Before (t u : Instant) : bool := t <? u.
Definition After (t u : Instant) : bool := u <? t.

Record whereWhen := mkWhereWhen { Domain : string; LastUsed : Instant }.

#[global] Instance whereWhen_eq_dec : EqDecision whereWhen.
Proof. solve_decision. Defined.

Record consensusPerPeerState := mkPeerState {
  domainToAddr : gmap string Addr;
  addrToDomain : gmap Addr whereWhen
}.

(** [&consensusPerPeerState{addrToDomain: &syncs.Map{}}]: a nil
    [domainToAddr] reads as the empty map. *)
Definition newPeerState : consensusPerPeerState := mkPeerState ∅ ∅.

Record ConsensusIPPool := mkPool {
  IPSet : list IPRange;
  perPeerMap : gmap Z consensusPerPeerState
}.

Definition NewConsensusIPPool (ipSet : list IPRange) : ConsensusIPPool :=
  mkPool ipSet ∅.

(** [ipp.perPeerMap.Store(nid, ps)]; also the write-back of a peer state
    mutated through its pointer. *)
Definition storePeer (ipp : ConsensusIPPool) (nid : NodeID)
    (ps : consensusPerPeerState) : ConsensusIPPool :=
  mkPool (IPSet ipp) (<[nid := ps]> (perPeerMap ipp)).

Definition error := string.

Definition errExhausted : error := "ip pool exhausted".

(** What the code prints with [log.Printf], by call site. *)
Inductive logLine :=
| LogPeerStateAbsent (from : NodeID)
| LogAddrNotRecognized (addr : Addr)
| LogMarkNoPeerState (from : NodeID)
| LogOutOfSync
| LogMarkRaftError (err : error)
| LogMarkStateMachineError.

(** ** The allocation scan *)

(** The inner loop of [unusedIPV4] over one range, from [ip] up.  [None]:
    the loop is still running when the fuel is spent; [Some None]: the loop
    condition failed, on to the next range; [Some (Some r)]: returned [r]. *)
Fixpoint scanRange (fuel : nat) (a2d : gmap Addr whereWhen)
    (reuseDeadline : Instant) (ip toIP : Addr)
  : option (option (Addr * bool * string)) :=
  match fuel with
  | O => None
  | S fuel' =>
      if decide (netip.Compare toIP ip = -1) then Some None
      else match a2d !! ip with
           | None => Some (Some (ip, false, EmptyString))
           | Some ww =>
               if Before (LastUsed ww) reuseDeadline
               then Some (Some (ip, true, Domain ww))
               else scanRange fuel' a2d reuseDeadline (netip.Next ip) toIP
           end
  end.

(** [unusedIPV4] over the remaining ranges; the Go result
    [(addr, wasInUse, previousDomain, err)]. *)
Fixpoint unusedIPV4_ranges (fuel : nat) (a2d : gmap Addr whereWhen)
    (ranges : list IPRange) (reuseDeadline : Instant)
  : option (Addr * bool * string * option error) :=
  match ranges with
  | [] => Some (netip.zero, false, EmptyString, Some errExhausted)
  | r :: rest =>
      if negb (netip.IsValid (From r)) || negb (netip.IsValid (To r))
      then unusedIPV4_ranges fuel a2d rest reuseDeadline
      else match scanRange fuel a2d reuseDeadline (From r) (To r) with
           | None => None
           | Some (Some (ip, wasInUse, prev)) => Some (ip, wasInUse, prev, None)
           | Some None => unusedIPV4_ranges fuel a2d rest reuseDeadline
           end
  end.

Definition unusedIPV4 (fuel : nat) (ps : consensusPerPeerState)
    (ipset : list IPRange) (reuseDeadline : Instant)
  : option (Addr * bool * string * option error) :=
  unusedIPV4_ranges fuel (addrToDomain ps) ipset reuseDeadline.

(** ** The command handlers *)

(** The tail of [applyCheckoutAddr] from the call of [unusedIPV4] on;
    [ps] is the peer's state, already stored under [nid] in [ipp]. *)
Definition allocate (fuel : nat) (ipp : ConsensusIPPool) (nid : NodeID)
    (ps : consensusPerPeerState) (domain : string)
    (reuseDeadline updatedAt : Instant)
  : option (ConsensusIPPool * (Addr * option error)) :=
  match unusedIPV4 fuel ps (IPSet ipp) reuseDeadline with
  | None => None
  | Some (_, _, _, Some err) => Some (ipp, (netip.zero, Some err))
  | Some (addr, wasInUse, previousDomain, None) =>
      let d2a := <[domain := addr]> (domainToAddr ps) in
      let d2a := if wasInUse then delete previousDomain d2a else d2a in
      let a2d := <[addr := mkWhereWhen domain updatedAt]> (addrToDomain ps) in
      Some (storePeer ipp nid (mkPeerState d2a a2d), (addr, None))
  end.

(** [applyCheckoutAddr]: new pool, log lines, and the Go result
    [(addr, err)]; [None] when the scan outlives the fuel. *)
Definition applyCheckoutAddr (fuel : nat) (ipp : ConsensusIPPool)
    (nid : NodeID) (domain : string) (reuseDeadline updatedAt : Instant)
  : option (ConsensusIPPool * list logLine * (Addr * option error)) :=
  let '(ps, ipp) :=
    match perPeerMap ipp !! nid with
    | Some ps => (ps, ipp)
    | None => (newPeerState, storePeer ipp nid newPeerState)
    end in
  match domainToAddr ps !! domain with
  | Some existing =>
      match addrToDomain ps !! existing with
      | Some ww =>
          let ww := mkWhereWhen (Domain ww) updatedAt in
          let ps := mkPeerState (domainToAddr ps)
                                (<[existing := ww]> (addrToDomain ps)) in
          Some (storePeer ipp nid ps, [], (existing, None))
      | None =>
          r ← allocate fuel ipp nid ps domain reuseDeadline updatedAt;
          Some (r.1, [LogOutOfSync], r.2)
      end
  | None =>
      r ← allocate fuel ipp nid ps domain reuseDeadline updatedAt;
      Some (r.1, [], r.2)
  end.

(** [applyMarkLastUsed]; the Go result is always the nil error. *)
Definition applyMarkLastUsed (ipp : ConsensusIPPool) (from : NodeID)
    (addr : Addr) (domain : string) (updatedAt : Instant)
  : ConsensusIPPool * list logLine * option error :=
  match perPeerMap ipp !! from with
  | None => (ipp, [LogMarkNoPeerState from], None)
  | Some ps =>
      match addrToDomain ps !! addr with
      | None => (ipp, [], None)
      | Some ww =>
          if negb (String.eqb (Domain ww) domain) then (ipp, [], None)
          else if After (LastUsed ww) updatedAt then (ipp, [], None)
          else
            let ww := mkWhereWhen (Domain ww) updatedAt in
            let ps := mkPeerState (domainToAddr ps)
                                  (<[addr := ww]> (addrToDomain ps)) in
            (storePeer ipp from ps, [], None)
      end
  end.

(** ** The raft entry point *)

Abbreviation bytes := (list Byte.byte).

(** [tsconsensus.Command] and [tsconsensus.CommandResult]. *)
Record Command := mkCommand { Name : string; Args : bytes }.
Record CommandResult := mkResult { Err : option error; Result : bytes }.

Record checkoutAddrArgs := mkCheckoutAddrArgs {
  ca_NodeID : NodeID;
  ca_Domain : string;
  ca_ReuseDeadline : Instant;
  ca_UpdatedAt : Instant
}.

Record markLastUsedArgs := mkMarkLastUsedArgs {
  ml_NodeID : NodeID;
  ml_Addr : Addr;
  ml_Domain : string;
  ml_UpdatedAt : Instant
}.

(** The uses of [encoding/json] in the file: the codec is opaque to the
    pool, each call either yields a value or an error. *)
Class JSON := {
  unmarshalCommand : bytes → error + Command;
  unmarshalCheckoutAddrArgs : bytes → error + checkoutAddrArgs;
  unmarshalMarkLastUsedArgs : bytes → error + markLastUsedArgs;
  marshalAddr : Addr → error + bytes;
  marshalMarkLastUsedArgs : markLastUsedArgs → error + bytes
}.

(** How a call of [Apply] ends: with a value for raft, or in a panic. *)
Inductive applyOutcome :=
| Returned (r : CommandResult)
| Panicked (msg : string).

Section Dispatcher.
Context `{codec : JSON}.

Definition executeMarkLastUsed (ipp : ConsensusIPPool) (bs : bytes)
  : ConsensusIPPool * list logLine * CommandResult :=
  match unmarshalMarkLastUsedArgs bs with
  | inl err => (ipp, [], mkResult (Some err) [])
  | inr args =>
      let '(ipp', logs, err) :=
        applyMarkLastUsed ipp (ml_NodeID args) (ml_Addr args)
                          (ml_Domain args) (ml_UpdatedAt args) in
      match err with
      | Some e => (ipp', logs, mkResult (Some e) [])
      | None => (ipp', logs, mkResult None [])
      end
  end.

Definition executeCheckoutAddr (fuel : nat) (ipp : ConsensusIPPool)
    (bs : bytes) : option (ConsensusIPPool * list logLine * CommandResult) :=
  match unmarshalCheckoutAddrArgs bs with
  | inl err => Some (ipp, [], mkResult (Some err) [])
  | inr args =>
      match applyCheckoutAddr fuel ipp (ca_NodeID args) (ca_Domain args)
                              (ca_ReuseDeadline args) (ca_UpdatedAt args) with
      | None => None
      | Some (ipp', logs, (_, Some e)) =>
          Some (ipp', logs, mkResult (Some e) [])
      | Some (ipp', logs, (addr, None)) =>
          match marshalAddr addr with
          | inl e => Some (ipp', logs, mkResult (Some e) [])
          | inr resultBs => Some (ipp', logs, mkResult None resultBs)
          end
      end
  end.

(** [Apply(l *raft.Log)], on the entry's [Data]. *)
Definition Apply (fuel : nat) (ipp : ConsensusIPPool) (data : bytes)
  : option (ConsensusIPPool * list logLine * applyOutcome) :=
  match unmarshalCommand data with
  | inl err => Some (ipp, [], Panicked ("failed to unmarshal command: " +:+ err))
  | inr c =>
      if String.eqb (Name c) "checkoutAddr" then
        r ← executeCheckoutAddr fuel ipp (Args c);
        Some (r.1.1, r.1.2, Returned r.2)
      else if String.eqb (Name c) "markLastUsed" then
        let r := executeMarkLastUsed ipp (Args c) in
        Some (r.1.1, r.1.2, Returned r.2)
      else Some (ipp, [], Panicked ("unrecognized command: " +:+ Name c))
  end.

(** Raft feeds the committed entries to [Apply] one after the other; a
    panic stops the replica, and the entries after it are not applied.
    The result: the pool, whether the replica halted, and the results
    handed back so far (oldest first). *)
Fixpoint replay (fuel : nat) (ipp : ConsensusIPPool) (entries : list bytes)
  : option (ConsensusIPPool * bool * list CommandResult) :=
  match entries with
  | [] => Some (ipp, false, [])
  | data :: rest =>
      match Apply fuel ipp data with
      | None => None
      | Some (ipp', _, Panicked _) => Some (ipp', true, [])
      | Some (ipp', _, Returned r) =>
          match replay fuel ipp' rest with
          | None => None
          | Some (ipp'', halted, rs) => Some (ipp'', halted, r :: rs)
          end
      end
  end.

End Dispatcher.

(** ** The local reader *)

(** What a reader does besides computing its result, in order. *)
Inductive event :=
| EvLoad                      (* one lookup in the local pool state *)
| EvSleep (ms : Z)            (* time.Sleep, in milliseconds *)
| EvLog (l : logLine).

(** Go's [int] is 64 bits wide here. *)
Definition wrapInt (x : Z) : Z := (x + 2 ^ 63) mod 2 ^ 64 - 2 ^ 63.

(** [timeToWait := 100; for i := 0; i < n; i++ { timeToWait *= 2 }]. *)
Definition timeToWait (n : Z) : Z :=
  Nat.iter (Z.to_nat n) (λ t, wrapInt (t * 2)) 100.

(** The two loads at the head of [retryDomainLookup]:
    [(foundPeerState, the entry if foundDomain)]. *)
Definition loadDomain (ipp : ConsensusIPPool) (from : NodeID) (addr : Addr)
  : bool * option whereWhen :=
  match perPeerMap ipp !! from with
  | None => (false, None)
  | Some ps => (true, addrToDomain ps !! addr)
  end.

(** [retryDomainLookup].  The pool is read while raft may be applying
    entries, so each attempt sees its own state: [view n] is the pool as the
    attempt numbered [n] finds it.  [None] stands for [(whereWhen{}, false)]. *)
Equations? retryDomainLookup (view : Z → ConsensusIPPool) (from : NodeID)
    (addr : Addr) (n : Z) : option whereWhen * list event
    by wf (Z.to_nat (5 - n)) lt :=
  retryDomainLookup view from addr n with loadDomain (view n) from addr := {
    | (_, Some ww) => (Some ww, [EvLoad]);
    | (foundPeerState, None) with decide (n > 4) := {
        | left _ =>
            (None, [EvLoad;
                    EvLog (if foundPeerState then LogAddrNotRecognized addr
                           else LogPeerStateAbsent from)]);
        | right _ =>
            let r := retryDomainLookup view from addr (n + 1) in
            (r.1, EvLoad :: EvSleep (timeToWait n) :: r.2) } }.
Proof. lia. Qed.

(** [commandExecutor]: the routing part of consensus. *)
Class commandExecutor := {
  ExecuteCommand : Command → CommandResult * option error
}.

(** How the goroutine started by [DomainForIP] ends. *)
Inductive goroutineOutcome :=
| GoDone
| GoPanic (err : error).

Section Reader.
Context `{codec : JSON} `{consensus : commandExecutor}.

(** [markLastUsed]: submits the command through raft. *)
Definition markLastUsed (nid : NodeID) (addr : Addr) (domain : string)
    (lastUsed : Instant) : list logLine * option error :=
  let args := mkMarkLastUsedArgs nid addr domain lastUsed in
  match marshalMarkLastUsedArgs args with
  | inl err => ([], Some err)
  | inr bs =>
      let c := mkCommand "markLastUsed" bs in
      match ExecuteCommand c with
      | (_, Some err) => ([LogMarkRaftError err], Some err)
      | (result, None) =>
          match Err result with
          | Some e => ([LogMarkStateMachineError], Some e)
          | None => ([], None)
          end
      end
  end.

(** The body of the [go func() { ... }()] of [DomainForIP]. *)
Definition refreshLastUsed (from : NodeID) (addr : Addr) (domain : string)
    (updatedAt : Instant) : list logLine * goroutineOutcome :=
  match markLastUsed from addr domain updatedAt with
  | (logs, Some err) => (logs, GoPanic err)
  | (logs, None) => (logs, GoDone)
  end.

(** One call of [DomainForIP]: the returned pair, what the caller's own
    thread did meanwhile, and the goroutine it left behind, if any, with
    what that goroutine logs and how it ends. *)
Record domainForIPRun := mkRun {
  returned : string * bool;
  trace : list event;
  spawned : option (list logLine * goroutineOutcome)
}.

Definition DomainForIP (view : Z → ConsensusIPPool) (from : NodeID)
    (addr : Addr) (updatedAt : Instant) : domainForIPRun :=
  match retryDomainLookup view from addr 0 with
  | (None, tr) => mkRun (EmptyString, false) tr None
  | (Some ww, tr) =>
      mkRun (Domain ww, true) tr
            (Some (refreshLastUsed from addr (Domain ww) updatedAt))
  end.

End Reader.

(** ** The write path of a client *)

(** The uses of [encoding/json] in [IPForDomain]. *)
Class JSONClient := {
  marshalCheckoutAddrArgs : checkoutAddrArgs → error + bytes;
  unmarshalAddr : bytes → error + Addr
}.

(** [time.Hour]; in [IPForDomain] instants count nanoseconds. *)
Definition Hour : Z := 3600 * 1000000000.

(** What [IPForDomain] prints with [log.Printf]; the second line prints
    the nil [err], not [result.Err]. *)
Inductive ipForDomainLog :=
| LogIPRaftError (err : error)
| LogIPStateMachineError.

Section Client.
Context `{client : JSONClient} `{consensus : commandExecutor}.

(** [IPForDomain]; [now] is what [time.Now()] reads.  The address left in
    [addr] when the result does not decode is the zero Addr. *)
Definition IPForDomain (now : Instant) (nid : NodeID) (domain : string)
  : list ipForDomainLog * (Addr * option error) :=
  let args := mkCheckoutAddrArgs nid domain (now + (-48) * Hour) now in
  match marshalCheckoutAddrArgs args with
  | inl err => ([], (netip.zero, Some err))
  | inr bs =>
      let c := mkCommand "checkoutAddr" bs in
      match ExecuteCommand c with
      | (_, Some err) => ([LogIPRaftError err], (netip.zero, Some err))
      | (result, None) =>
          match Err result with
          | Some e => ([LogIPStateMachineError], (netip.zero, Some e))
          | None =>
              match unmarshalAddr (Result result) with
              | inl err => ([], (netip.zero, Some err))
              | inr addr => ([], (addr, None))
              end
          end
      end
  end.

End Client.

(** * Vocabulary of the statements *)

(** ** Reachable pool states and the invariant *)

(** The states the two handlers produce from the empty pool, whatever the
    arguments of the commands and whether or not a checkout succeeds. *)
Inductive Reachable (ipset : list IPRange) : ConsensusIPPool → Prop :=
| reach_new : Reachable ipset (NewConsensusIPPool ipset)
| reach_checkoutAddr fuel ipp nid domain reuseDeadline updatedAt ipp' logs r :
    Reachable ipset ipp →
    applyCheckoutAddr fuel ipp nid domain reuseDeadline updatedAt
      = Some (ipp', logs, r) →
    Reachable ipset ipp'
| reach_markLastUsed ipp from addr domain updatedAt :
    Reachable ipset ipp →
    Reachable ipset (applyMarkLastUsed ipp from addr domain updatedAt).1.1.

(** Forward entries point at a reverse entry naming the same domain. *)
Definition forwardOk (ps : consensusPerPeerState) : Prop :=
  ∀ d a, domainToAddr ps !! d = Some a →
         ∃ ww, addrToDomain ps !! a = Some ww ∧ Domain ww = d.

(** Reverse entries are pointed at by the forward entry of their domain. *)
Definition backwardOk (ps : consensusPerPeerState) : Prop :=
  ∀ a ww, addrToDomain ps !! a = Some ww →
          domainToAddr ps !! Domain ww = Some a.

Definition peerInv (ps : consensusPerPeerState) : Prop :=
  forwardOk ps ∧ backwardOk ps.

Definition poolInv (ipp : ConsensusIPPool) : Prop :=
  ∀ nid ps, perPeerMap ipp !! nid = Some ps → peerInv ps.

(** What a candidate of the scan looks like in [addrToDomain]. *)
Definition candidateOf (a2d : gmap Addr whereWhen) (reuseDeadline : Instant)
    (ip : Addr) (wasInUse : bool) (prev : string) : Prop :=
  if wasInUse
  then ∃ ww, a2d !! ip = Some ww ∧ Domain ww = prev
             ∧ LastUsed ww < reuseDeadline
  else a2d !! ip = None ∧ prev = EmptyString.

(** ** Addresses as numbers, ranges and the Address Set *)

(** The address as a 128-bit number. *)
Definition val (a : Addr) : Z := netip.hi a * netip.two64 + netip.lo a.

(** The addresses [netip] itself builds: IPv4 in its mapped form, IPv6
    with both halves in range. *)
Definition wfAddr (a : Addr) : Prop :=
  match netip.z a with
  | netip.z0 => False
  | netip.z4 =>
      netip.hi a = 0
      ∧ 0xffff00000000 ≤ netip.lo a < 0xffff00000000 + netip.two32
  | netip.z6noz =>
      0 ≤ netip.hi a < netip.two64 ∧ 0 ≤ netip.lo a < netip.two64
  end.

(** The value of the last address of a family. *)
Definition maxVal (k : netip.zone) : Z :=
  match k with
  | netip.z0 => 0
  | netip.z4 => 0xffffffffffff
  | netip.z6noz => netip.two64 * netip.two64 - 1
  end.

(** The ranges [netipx] builds: both ends well formed, of one family, in
    order. *)
Definition regular (r : IPRange) : Prop :=
  wfAddr (From r) ∧ wfAddr (To r) ∧ netip.z (From r) = netip.z (To r)
  ∧ val (From r) ≤ val (To r).

(** [a] is one of the addresses of the range [r]. *)
Definition inRange (r : IPRange) (a : Addr) : Prop :=
  wfAddr a ∧ netip.z a = netip.z (To r) ∧ val (From r) ≤ val a ≤ val (To r).

(** [a] is one of the addresses of the Address Set. *)
Definition inPool (ranges : list IPRange) (a : Addr) : Prop :=
  ∃ r, r ∈ ranges ∧ inRange r a.

(** The range ends at the last address of its family, where [Next] wraps. *)
Definition endsFamily (r : IPRange) : Prop :=
  val (To r) = maxVal (netip.z (To r)).

(** Recorded and not expired: the scan passes over the address. *)
Definition held (a2d : gmap Addr whereWhen) (reuseDeadline : Instant)
    (a : Addr) : Prop :=
  ∃ ww, a2d !! a = Some ww ∧ reuseDeadline ≤ LastUsed ww.

(** A range the scan walks through without a candidate and without
    wrapping. *)
Definition passedOver (a2d : gmap Addr whereWhen) (reuseDeadline : Instant)
    (r : IPRange) : Prop :=
  regular r ∧ ¬ endsFamily r ∧ ∀ a, inRange r a → held a2d reuseDeadline a.

(** ** Traces of the reader *)

(** The number of lookups in a trace, and its waits in order. *)
Fixpoint loads (tr : list event) : nat :=
  match tr with
  | [] => 0
  | EvLoad :: tr => S (loads tr)
  | _ :: tr => loads tr
  end.

Fixpoint sleeps (tr : list event) : list Z :=
  match tr with
  | [] => []
  | EvSleep ms :: tr => ms :: sleeps tr
  | _ :: tr => sleeps tr
  end.

Definition totalSleep (tr : list event) : Z := foldr Z.add 0 (sleeps tr).

(** The pair is absent from the pool: no peer state, or no entry in it. *)
Definition absentFrom (ipp : ConsensusIPPool) (from : NodeID) (addr : Addr)
  : Prop :=
  (loadDomain ipp from addr).2 = None.

(** ** The two paths of a checkout, and the guards of a mark *)

(** The state of peer [nid] as [applyCheckoutAddr] sees it after its first
    step, and the pool with that state stored. *)
Definition peerOf (ipp : ConsensusIPPool) (nid : NodeID)
  : consensusPerPeerState :=
  default newPeerState (perPeerMap ipp !! nid).

Definition withPeer (ipp : ConsensusIPPool) (nid : NodeID) : ConsensusIPPool :=
  match perPeerMap ipp !! nid with
  | Some _ => ipp
  | None => storePeer ipp nid newPeerState
  end.

(** The peer state with the timestamp of [existing] refreshed. *)
Definition refreshed (ps : consensusPerPeerState) (existing : Addr)
    (ww : whereWhen) (updatedAt : Instant) : consensusPerPeerState :=
  mkPeerState (domainToAddr ps)
    (<[existing := mkWhereWhen (Domain ww) updatedAt]> (addrToDomain ps)).

(** The outcome of the allocation path, with the lines it logs. *)
Definition allocated (fuel : nat) (ipp : ConsensusIPPool) (nid : NodeID)
    (domain : string) (reuseDeadline updatedAt : Instant)
    (logs : list logLine)
  : option (ConsensusIPPool * list logLine * (Addr * option error)) :=
  r ← allocate fuel (withPeer ipp nid) nid (peerOf ipp nid) domain
                reuseDeadline updatedAt;
  Some (r.1, logs, r.2).

(** One of the four guards of [applyMarkLastUsed] holds: the peer is
    unknown, the address is not tracked, it is tracked for another domain,
    or its stored lastUsed is at least [updatedAt]. *)
Definition markGuarded (ipp : ConsensusIPPool) (from : NodeID) (addr : Addr)
    (domain : string) (updatedAt : Instant) : Prop :=
  match perPeerMap ipp !! from with
  | None => True
  | Some ps =>
      match addrToDomain ps !! addr with
      | None => True
      | Some ww => Domain ww ≠ domain ∨ updatedAt ≤ LastUsed ww
      end
  end.

(** What the claim promises of the checkout of [d]: [X] is reassigned. *)
Definition reassigned `{JSON} `{commandExecutor} (ipp : ConsensusIPPool)
    (nid : NodeID) (X : Addr) (old d : string)
    (reuseDeadline updatedAt : Instant) : Prop :=
  ∃ fuel0, ∀ fuel, (fuel0 ≤ fuel)%nat →
    ∃ ipp' logs ps',
      applyCheckoutAddr fuel ipp nid d reuseDeadline updatedAt
        = Some (ipp', logs, (X, None))
      ∧ perPeerMap ipp' !! nid = Some ps'
      ∧ domainToAddr ps' !! d = Some X
      ∧ domainToAddr ps' !! old = None
      ∧ addrToDomain ps' !! X = Some (mkWhereWhen d updatedAt)
      ∧ ∀ observedAt,
          returned (DomainForIP (λ _, ipp') nid X observedAt) = (d, true).

(** ** What a mark does to an entry *)

(** The entry after a mark for [domain] at [updatedAt]: lastUsed moves up
    to [updatedAt] when the entry is recorded for [domain]. *)
Definition markedEntry (domain : string) (updatedAt : Instant)
    (ww : whereWhen) : whereWhen :=
  if String.eqb (Domain ww) domain
  then mkWhereWhen (Domain ww) (Z.max (LastUsed ww) updatedAt)
  else ww.

(** The peer state after a mark of [addr]. *)
Definition markedPeer (addr : Addr) (domain : string) (updatedAt : Instant)
    (ps : consensusPerPeerState) : consensusPerPeerState :=
  mkPeerState (domainToAddr ps)
    (alter (markedEntry domain updatedAt) addr (addrToDomain ps)).

(** ** Ranges the scan has a use for *)

(** Both ends valid and [To] not before [From]: the inner loop of the scan
    runs at least once. *)
Definition usable (r : IPRange) : bool :=
  netip.IsValid (From r) && netip.IsValid (To r)
  && negb (netip.Compare (To r) (From r) =? -1).

(** ** The package as programs over its effects

    The same handlers once more, statement by statement, as programs that
    name each thing the Go code touches: the replicated maps, the log, and
    the world outside the state machine (clock, sleep, randomness, the
    consensus executor).  [runProg] executes a program against an environment
    that answers the calls to the outside world. *)

Inductive effect : Type → Type :=
| PeerLoad (nid : NodeID) : effect bool
    (* _, ok := ipp.perPeerMap.Load(nid) *)
| PeerStoreNew (nid : NodeID) : effect unit
    (* ipp.perPeerMap.Store(nid, &consensusPerPeerState{...}) *)
| DomainToAddrGet (nid : NodeID) (domain : string) : effect (option Addr)
    (* ps.domainToAddr[domain] *)
| DomainToAddrSet (nid : NodeID) (domain : string) (a : Addr) : effect unit
    (* mak.Set(&ps.domainToAddr, domain, a) *)
| DomainToAddrDelete (nid : NodeID) (domain : string) : effect unit
    (* delete(ps.domainToAddr, domain) *)
| AddrToDomainLoad (nid : NodeID) (a : Addr) : effect (option whereWhen)
    (* ps.addrToDomain.Load(a) *)
| AddrToDomainStore (nid : NodeID) (a : Addr) (ww : whereWhen) : effect unit
    (* ps.addrToDomain.Store(a, ww) *)
| Ranges : effect (list IPRange)
    (* ipp.IPSet.Ranges() *)
| LogPrintf (l : logLine + ipForDomainLog) : effect unit
    (* log.Printf, from the state machine or from IPForDomain *)
| TimeNow : effect Instant
    (* time.Now() *)
| TimeSleep (ms : Z) : effect unit
    (* time.Sleep *)
| RandInt : effect Z
    (* a draw from math/rand or crypto/rand *)
| ExecuteCommandE (c : Command) : effect (CommandResult * option error).
    (* ipp.consensus.ExecuteCommand(c): the network *)

(** Programs: a result, an effect followed by the rest, a panic, or a loop
    that outlives its fuel. *)
Inductive prog (A : Type) : Type :=
| Ret (a : A)
| Vis {X : Type} (e : effect X) (k : X → prog A)
| PanicP (msg : string)
| OutOfFuel.

Arguments Ret {A} a.
Arguments Vis {A X} e k.
Arguments PanicP {A} msg.
Arguments OutOfFuel {A}.

Fixpoint progBind {A B : Type} (p : prog A) (f : A → prog B) : prog B :=
  match p with
  | Ret a => f a
  | Vis e k => Vis e (λ x, progBind (k x) f)
  | PanicP msg => PanicP msg
  | OutOfFuel => OutOfFuel
  end.

#[global] Instance prog_ret : MRet prog := @Ret.
#[global] Instance prog_bind : MBind prog := λ A B f p, progBind p f.

Definition trigger {X : Type} (e : effect X) : prog X := Vis e Ret.

(** The inner loop of [unusedIPV4], each [Load] an effect. *)
Fixpoint scanRangeP (fuel : nat) (nid : NodeID) (reuseDeadline : Instant)
    (ip toIP : Addr) : prog (option (Addr * bool * string)) :=
  match fuel with
  | O => OutOfFuel
  | S fuel' =>
      if decide (netip.Compare toIP ip = -1) then Ret None
      else
        ww ← trigger (AddrToDomainLoad nid ip);
        match ww with
        | None => Ret (Some (ip, false, EmptyString))
        | Some ww =>
            if Before (LastUsed ww) reuseDeadline
            then Ret (Some (ip, true, Domain ww))
            else scanRangeP fuel' nid reuseDeadline (netip.Next ip) toIP
        end
  end.

Fixpoint unusedIPV4_rangesP (fuel : nat) (nid : NodeID)
    (ranges : list IPRange) (reuseDeadline : Instant)
  : prog (Addr * bool * string * option error) :=
  match ranges with
  | [] => Ret (netip.zero, false, EmptyString, Some errExhausted)
  | r :: rest =>
      if negb (netip.IsValid (From r)) || negb (netip.IsValid (To r))
      then unusedIPV4_rangesP fuel nid rest reuseDeadline
      else
        c ← scanRangeP fuel nid reuseDeadline (From r) (To r);
        match c with
        | Some (ip, wasInUse, prev) => Ret (ip, wasInUse, prev, None)
        | None => unusedIPV4_rangesP fuel nid rest reuseDeadline
        end
  end.

Definition unusedIPV4P (fuel : nat) (nid : NodeID) (reuseDeadline : Instant)
  : prog (Addr * bool * string * option error) :=
  ranges ← trigger Ranges;
  unusedIPV4_rangesP fuel nid ranges reuseDeadline.

(** [applyCheckoutAddr] from the call of [unusedIPV4] on. *)
Definition allocateP (fuel : nat) (nid : NodeID) (domain : string)
    (reuseDeadline updatedAt : Instant) : prog (Addr * option error) :=
  r ← unusedIPV4P fuel nid reuseDeadline;
  match r with
  | (_, _, _, Some err) => Ret (netip.zero, Some err)
  | (addr, wasInUse, previousDomain, None) =>
      _ ← trigger (DomainToAddrSet nid domain addr);
      _ ← (if wasInUse : bool
           then trigger (DomainToAddrDelete nid previousDomain)
           else Ret tt);
      _ ← trigger (AddrToDomainStore nid addr (mkWhereWhen domain updatedAt));
      Ret (addr, None)
  end.

Definition applyCheckoutAddrP (fuel : nat) (nid : NodeID) (domain : string)
    (reuseDeadline updatedAt : Instant) : prog (Addr * option error) :=
  ok ← trigger (PeerLoad nid);
  _ ← (if ok : bool then Ret tt else trigger (PeerStoreNew nid));
  existing ← trigger (DomainToAddrGet nid domain);
  match existing with
  | Some existing =>
      ww ← trigger (AddrToDomainLoad nid existing);
      match ww with
      | Some ww =>
          _ ← trigger (AddrToDomainStore nid existing
                         (mkWhereWhen (Domain ww) updatedAt));
          Ret (existing, None)
      | None =>
          _ ← trigger (LogPrintf (inl LogOutOfSync));
          allocateP fuel nid domain reuseDeadline updatedAt
      end
  | None => allocateP fuel nid domain reuseDeadline updatedAt
  end.

Definition applyMarkLastUsedP (from : NodeID) (addr : Addr) (domain : string)
    (updatedAt : Instant) : prog (option error) :=
  ok ← trigger (PeerLoad from);
  if negb ok then
    _ ← trigger (LogPrintf (inl (LogMarkNoPeerState from)));
    Ret None
  else
    ww ← trigger (AddrToDomainLoad from addr);
    match ww with
    | None => Ret None
    | Some ww =>
        if negb (String.eqb (Domain ww) domain) then Ret None
        else if After (LastUsed ww) updatedAt then Ret None
        else
          _ ← trigger (AddrToDomainStore from addr
                         (mkWhereWhen (Domain ww) updatedAt));
          Ret None
    end.

Section Programs.
Context `{codec : JSON}.

Definition executeMarkLastUsedP (bs : bytes) : prog CommandResult :=
  match unmarshalMarkLastUsedArgs bs with
  | inl err => Ret (mkResult (Some err) [])
  | inr args =>
      err ← applyMarkLastUsedP (ml_NodeID args) (ml_Addr args)
                               (ml_Domain args) (ml_UpdatedAt args);
      match err with
      | Some e => Ret (mkResult (Some e) [])
      | None => Ret (mkResult None [])
      end
  end.

Definition executeCheckoutAddrP (fuel : nat) (bs : bytes)
  : prog CommandResult :=
  match unmarshalCheckoutAddrArgs bs with
  | inl err => Ret (mkResult (Some err) [])
  | inr args =>
      r ← applyCheckoutAddrP fuel (ca_NodeID args) (ca_Domain args)
                             (ca_ReuseDeadline args) (ca_UpdatedAt args);
      match r with
      | (_, Some e) => Ret (mkResult (Some e) [])
      | (addr, None) =>
          match marshalAddr addr with
          | inl e => Ret (mkResult (Some e) [])
          | inr resultBs => Ret (mkResult None resultBs)
          end
      end
  end.

(** [Apply], on the entry's [Data]. *)
Definition ApplyP (fuel : nat) (data : bytes) : prog CommandResult :=
  match unmarshalCommand data with
  | inl err => PanicP ("failed to unmarshal command: " +:+ err)
  | inr c =>
      if String.eqb (Name c) "checkoutAddr"
      then executeCheckoutAddrP fuel (Args c)
      else if String.eqb (Name c) "markLastUsed"
      then executeMarkLastUsedP (Args c)
      else PanicP ("unrecognized command: " +:+ Name c)
  end.

(** [markLastUsed], the client call that goes through raft. *)
Definition markLastUsedP (nid : NodeID) (addr : Addr) (domain : string)
    (lastUsed : Instant) : prog (option error) :=
  match marshalMarkLastUsedArgs
          (mkMarkLastUsedArgs nid addr domain lastUsed) with
  | inl err => Ret (Some err)
  | inr bs =>
      r ← trigger (ExecuteCommandE (mkCommand "markLastUsed" bs));
      match r with
      | (_, Some err) =>
          _ ← trigger (LogPrintf (inl (LogMarkRaftError err)));
          Ret (Some err)
      | (result, None) =>
          match Err result with
          | Some e =>
              _ ← trigger (LogPrintf (inl LogMarkStateMachineError));
              Ret (Some e)
          | None => Ret None
          end
      end
  end.

End Programs.

(** [IPForDomain], the client call that reads the clock and hands what it
    read to raft inside the arguments of the command. *)
Definition IPForDomainP `{client : JSONClient} (nid : NodeID)
    (domain : string) : prog (Addr * option error) :=
  now ← trigger TimeNow;
  match marshalCheckoutAddrArgs
          (mkCheckoutAddrArgs nid domain (now + (-48) * Hour) now) with
  | inl err => Ret (netip.zero, Some err)
  | inr bs =>
      r ← trigger (ExecuteCommandE (mkCommand "checkoutAddr" bs));
      match r with
      | (_, Some err) =>
          _ ← trigger (LogPrintf (inr (LogIPRaftError err)));
          Ret (netip.zero, Some err)
      | (result, None) =>
          match Err result with
          | Some e =>
              _ ← trigger (LogPrintf (inr LogIPStateMachineError));
              Ret (netip.zero, Some e)
          | None =>
              match unmarshalAddr (Result result) with
              | inl err => Ret (netip.zero, Some err)
              | inr addr => Ret (addr, None)
              end
          end
      end
  end.

(** What a replica is at a point of an execution: its pool state, what it
    has logged, and how many times it has turned to the outside world. *)
Record world := mkWorld {
  w_pool : ConsensusIPPool;
  w_log : list (logLine + ipForDomainLog);
  w_asked : nat
}.

(** The outside world of one replica: what its clock, its random source
    and its consensus executor answer to the n-th question. *)
Record environment := mkEnvironment {
  env_now : nat → Instant;
  env_rand : nat → Z;
  env_exec : nat → Command → CommandResult * option error
}.

(** The executor a replica finds when it asks for the n-th time. *)
Definition executorAt (env : environment) (n : nat) : commandExecutor :=
  {| ExecuteCommand := env_exec env n |}.

Definition freshWorld (ipSet : list IPRange) : world :=
  mkWorld (NewConsensusIPPool ipSet) [] 0.

Definition setPool (w : world) (ipp : ConsensusIPPool) : world :=
  mkWorld ipp (w_log w) (w_asked w).

Definition asked (w : world) : world :=
  mkWorld (w_pool w) (w_log w) (S (w_asked w)).

(** A mutation through the pointer [ps] held for peer [nid]. *)
Definition updatePeer (ipp : ConsensusIPPool) (nid : NodeID)
    (f : consensusPerPeerState → consensusPerPeerState) : ConsensusIPPool :=
  storePeer ipp nid (f (peerOf ipp nid)).

Definition handle (env : environment) {X : Type} (e : effect X) (w : world)
  : X * world :=
  match e in effect X return X * world with
  | PeerLoad nid =>
      (match perPeerMap (w_pool w) !! nid with
       | Some _ => true
       | None => false
       end, w)
  | PeerStoreNew nid => (tt, setPool w (storePeer (w_pool w) nid newPeerState))
  | DomainToAddrGet nid domain =>
      (domainToAddr (peerOf (w_pool w) nid) !! domain, w)
  | DomainToAddrSet nid domain a =>
      (tt, setPool w (updatePeer (w_pool w) nid
                        (λ ps, mkPeerState (<[domain := a]> (domainToAddr ps))
                                           (addrToDomain ps))))
  | DomainToAddrDelete nid domain =>
      (tt, setPool w (updatePeer (w_pool w) nid
                        (λ ps, mkPeerState (delete domain (domainToAddr ps))
                                           (addrToDomain ps))))
  | AddrToDomainLoad nid a => (addrToDomain (peerOf (w_pool w) nid) !! a, w)
  | AddrToDomainStore nid a ww =>
      (tt, setPool w (updatePeer (w_pool w) nid
                        (λ ps, mkPeerState (domainToAddr ps)
                                           (<[a := ww]> (addrToDomain ps)))))
  | Ranges => (IPSet (w_pool w), w)
  | LogPrintf l => (tt, mkWorld (w_pool w) (w_log w ++ [l]) (w_asked w))
  | TimeNow => (env_now env (w_asked w), asked w)
  | TimeSleep ms => (tt, asked w)
  | RandInt => (env_rand env (w_asked w), asked w)
  | ExecuteCommandE c => (env_exec env (w_asked w) c, asked w)
  end.

(** How a run ends. *)
Inductive runResult (A : Type) : Type :=
| RunDone (a : A) (w : world)
| RunPanic (msg : string) (w : world)
| RunOutOfFuel.

Arguments RunDone {A} a w.
Arguments RunPanic {A} msg w.
Arguments RunOutOfFuel {A}.

Fixpoint runProg {A : Type} (env : environment) (p : prog A) (w : world)
  : runResult A :=
  match p with
  | Ret a => RunDone a w
  | Vis e k => runProg env (k (handle env e w).1) (handle env e w).2
  | PanicP msg => RunPanic msg w
  | OutOfFuel => RunOutOfFuel
  end.

(** The effects that stay inside the replica: the maps and the log. *)
Definition internal {X : Type} (e : effect X) : Prop :=
  match e with
  | TimeNow | TimeSleep _ | RandInt | ExecuteCommandE _ => False
  | _ => True
  end.

(** No path of the program turns to the outside world. *)
Fixpoint worldFree {A : Type} (p : prog A) : Prop :=
  match p with
  | Vis e k => internal e ∧ ∀ x, worldFree (k x)
  | _ => True
  end.

(** A replica replays the committed entries through [ApplyP]; a panic stops
    it.  The result: its world, whether it halted, and the results handed
    back so far (oldest first); [None] when a scan outlives the fuel. *)
Fixpoint replayRun `{JSON} (env : environment) (fuel : nat) (w : world)
    (entries : list bytes) : option (world * bool * list CommandResult) :=
  match entries with
  | [] => Some (w, false, [])
  | data :: rest =>
      match runProg env (ApplyP fuel data) w with
      | RunOutOfFuel => None
      | RunPanic _ w' => Some (w', true, [])
      | RunDone r w' =>
          match replayRun env fuel w' rest with
          | None => None
          | Some (w'', halted, rs) => Some (w'', halted, r :: rs)
          end
      end
  end.

(** Fuel that outlasts the scan of every range of the set. *)
Definition scanFuel (ranges : list IPRange) : nat :=
  S (foldr (λ r n, Nat.max (Z.to_nat (val (To r) + 1 - val (From r))) n)
           0%nat ranges).

(** ** Claims as the specification words them

    Four claims do not hold of the code as they are worded; each is stated
    here in its own words, to be refuted at a concrete input below. *)

(** The claim as the specification words it: five attempts, four waits,
    1500 time units in all. *)
Definition retry_bound_as_stated `{JSON} `{commandExecutor}
    (view : Z → ConsensusIPPool) (from : NodeID) (addr : Addr)
    (updatedAt : Instant) : Prop :=
  (∀ n, absentFrom (view n) from addr) →
  let run := DomainForIP view from addr updatedAt in
  returned run = (EmptyString, false)
  ∧ loads (trace run) = 5%nat
  ∧ sleeps (trace run) = [100; 200; 400; 800]
  ∧ totalSleep (trace run) = 1500.

(** The claim as the specification words it: whatever happens to the
    refresh, its goroutine ends normally, having at most logged. *)
Definition refresh_failure_only_logged_as_stated `{JSON} `{commandExecutor}
    (view : Z → ConsensusIPPool) (from : NodeID) (addr : Addr)
    (updatedAt : Instant) : Prop :=
  ∀ logs outcome,
    spawned (DomainForIP view from addr updatedAt) = Some (logs, outcome) →
    outcome = GoDone.

(** The second half of the claim as the specification words it: a reverse
    entry naming another domain sends the checkout to the allocation scan. *)
Definition fast_path_as_stated (fuel : nat) (ipp : ConsensusIPPool)
    (nid : NodeID) (domain : string) (reuseDeadline updatedAt : Instant)
  : Prop :=
  ∀ existing ww,
    domainToAddr (peerOf ipp nid) !! domain = Some existing →
    addrToDomain (peerOf ipp nid) !! existing = Some ww →
    Domain ww ≠ domain →
    applyCheckoutAddr fuel ipp nid domain reuseDeadline updatedAt
      = allocated fuel ipp nid domain reuseDeadline updatedAt [LogOutOfSync].

(** The claim as the specification words it: any domain other than the one
    [X] is recorded for gets [X]. *)
Definition reuse_as_stated `{JSON} `{commandExecutor} (ipp : ConsensusIPPool)
    (nid : NodeID) (ps : consensusPerPeerState) (X : Addr) (wwX : whereWhen)
    (d : string) (reuseDeadline updatedAt : Instant) : Prop :=
  Forall regular (IPSet ipp) →
  Forall (λ r, ¬ endsFamily r) (IPSet ipp) →
  perPeerMap ipp !! nid = Some ps →
  inPool (IPSet ipp) X →
  addrToDomain ps !! X = Some wwX →
  LastUsed wwX < reuseDeadline →
  (∀ a, inPool (IPSet ipp) a → a ≠ X → held (addrToDomain ps) reuseDeadline a) →
  d ≠ Domain wwX →
  reassigned ipp nid X (Domain wwX) d reuseDeadline updatedAt.

(** * Values used in the examples *)

(** 10.0.0.1 and 10.0.0.2, and the Address Set made of just these two. *)
Definition addrX : Addr := netip.AddrFrom4 0x0a000001.
Definition addrY : Addr := netip.AddrFrom4 0x0a000002.
Definition poolXY : list IPRange := [mkRange addrX addrY].

(** Peer 1 after its first checkout, of "a.example" at instant 100. *)
Definition peerA : consensusPerPeerState :=
  mkPeerState {[ "a.example"%string := addrX ]}
              {[ addrX := mkWhereWhen "a.example" 100 ]}.

Definition poolA : ConsensusIPPool :=
  storePeer (NewConsensusIPPool poolXY) 1 peerA.

(** A codec for the examples: the first byte of an entry picks the command
    name, an empty payload does not decode. *)
Definition exampleName (b : Byte.byte) : string :=
  match b with
  | Byte.x00 => "checkoutAddr"
  | Byte.x01 => "markLastUsed"
  | _ => "compact"
  end.

Definition exampleJSON : JSON := {|
  unmarshalCommand bs :=
    match bs with
    | [] => inl "unexpected end of JSON input"%string
    | b :: args => inr (mkCommand (exampleName b) args)
    end;
  unmarshalCheckoutAddrArgs bs :=
    match bs with
    | [] => inl "unexpected end of JSON input"%string
    | _ :: _ => inr (mkCheckoutAddrArgs 1 "a.example" 0 100)
    end;
  unmarshalMarkLastUsedArgs bs :=
    match bs with
    | [] => inl "unexpected end of JSON input"%string
    | _ :: _ => inr (mkMarkLastUsedArgs 1 addrX "a.example" 200)
    end;
  marshalAddr _ := inr [Byte.x0a];
  marshalMarkLastUsedArgs _ := inr [Byte.x01]
|}.

(** An executor that has lost its leader, and one that commits. *)
Definition failingExecutor : commandExecutor :=
  {| ExecuteCommand _ := (mkResult None [], Some "leadership lost"%string) |}.

Definition committingExecutor : commandExecutor :=
  {| ExecuteCommand _ := (mkResult None [], None) |}.

(** A peer state out of sync: "a.example" points at 10.0.0.1, whose
    reverse entry names "b.example". *)
Definition peerOutOfSync : consensusPerPeerState :=
  mkPeerState {[ "a.example"%string := addrX ]}
              {[ addrX := mkWhereWhen "b.example" 50 ]}.

Definition poolOutOfSync : ConsensusIPPool :=
  storePeer (NewConsensusIPPool poolXY) 1 peerOutOfSync.

(** 255.255.255.255, the Address Set made of it alone, and peer 1 holding
    it for "x.example" since instant 100. *)
Definition addrLast : Addr := netip.AddrFrom4 0xffffffff.
Definition poolLast : list IPRange := [mkRange addrLast addrLast].

Definition peerLast : consensusPerPeerState :=
  mkPeerState {[ "x.example"%string := addrLast ]}
              {[ addrLast := mkWhereWhen "x.example" 100 ]}.

(** Peer 1 holds 10.0.0.1 for "a.example", last used at 0, and 10.0.0.2 for
    "b.example", last used at 100. *)
Definition peerAB : consensusPerPeerState :=
  mkPeerState {[ "a.example"%string := addrX; "b.example"%string := addrY ]}
              {[ addrX := mkWhereWhen "a.example" 0;
                 addrY := mkWhereWhen "b.example" 100 ]}.

Definition poolAB : ConsensusIPPool :=
  storePeer (NewConsensusIPPool poolXY) 1 peerAB.

(** Pool {10.0.0.1, 10.0.0.2}: peer 1 gets 10.0.0.1 for "a.example" and
    10.0.0.2 for "b.example"; "c.example" finds the pool exhausted; once the
    reuse deadline has passed the last use of 10.0.0.1, "c.example" gets
    10.0.0.1, and resolving 10.0.0.1 gives "c.example". *)
Definition scenario : option (list (Addr * option error) * (string * bool)) :=
  r1 ← applyCheckoutAddr 3 (NewConsensusIPPool poolXY) 1 "a.example" 0 100;
  r2 ← applyCheckoutAddr 3 r1.1.1 1 "b.example" 0 110;
  r3 ← applyCheckoutAddr 3 r2.1.1 1 "c.example" 0 120;
  r4 ← applyCheckoutAddr 3 r3.1.1 1 "c.example" 105 300;
  Some ([r1.2; r2.2; r3.2; r4.2],
        returned (@DomainForIP exampleJSON committingExecutor
                    (λ _, r4.1.1) 1 addrX 310)).

(** Peer 2 holds 10.0.0.1 for "z.example" beside peer 1 of [poolA]. *)
Definition peerZ : consensusPerPeerState :=
  mkPeerState {[ "z.example"%string := addrX ]}
              {[ addrX := mkWhereWhen "z.example" 100 ]}.

Definition poolAZ : ConsensusIPPool := storePeer poolA 2 peerZ.

(** Peer 1 holds 10.0.0.1 for "a.example", last used at 100, and 10.0.0.2
    for "b.example", last used at 0: the higher address is the staler. *)
Definition peerBA : consensusPerPeerState :=
  mkPeerState {[ "a.example"%string := addrX; "b.example"%string := addrY ]}
              {[ addrX := mkWhereWhen "a.example" 100;
                 addrY := mkWhereWhen "b.example" 0 ]}.

(** A codec for the write path: the checkout of "a.example" by peer 1 at
    the instant 172800000000100, 48 hours and 100 nanoseconds after the
    origin, and 10.0.0.1 as the only address that decodes. *)
Definition exampleJSON48 : JSON := {|
  unmarshalCommand := @unmarshalCommand exampleJSON;
  unmarshalCheckoutAddrArgs bs :=
    match bs with
    | [] => inl "unexpected end of JSON input"%string
    | _ :: _ => inr (mkCheckoutAddrArgs 1 "a.example" 100 172800000000100)
    end;
  unmarshalMarkLastUsedArgs := @unmarshalMarkLastUsedArgs exampleJSON;
  marshalAddr := @marshalAddr exampleJSON;
  marshalMarkLastUsedArgs := @marshalMarkLastUsedArgs exampleJSON
|}.

Definition exampleClient : JSONClient := {|
  marshalCheckoutAddrArgs _ := inr [Byte.x00];
  unmarshalAddr bs :=
    match bs with
    | [Byte.x0a] => inr addrX
    | _ => inl "ParseAddr: unable to parse IP"%string
    end
|}.

(** An executor that hands back the encoding of 10.0.0.1. *)
Definition allocatingExecutor : commandExecutor :=
  {| ExecuteCommand _ := (mkResult None [Byte.x0a], None) |}.

(** Two outside worlds: one whose clock stands still and whose executor
    has lost leadership, one whose clock runs and whose executor commits. *)
Definition envQuiet : environment :=
  mkEnvironment (λ _, 0) (λ _, 0) (λ _, @ExecuteCommand failingExecutor).

Definition envBusy : environment :=
  mkEnvironment (λ n, 1000 + Z.of_nat n) (λ n, 7 * Z.of_nat n)
                (λ _, @ExecuteCommand allocatingExecutor).

(** * Facts about netip addresses *)

Module netip_facts.
Import netip.

Lemma wfAddr_bounds a :
  wfAddr a → 0 ≤ hi a < two64 ∧ 0 ≤ lo a < two64 ∧ val a ≤ maxVal (z a).
Proof.
  unfold wfAddr, val, maxVal, two64, two32.
  destruct a as [h l []]; simpl; [done|lia|nia].
Qed.

Lemma wfAddr_valid a : wfAddr a → IsValid a = true.
Proof. unfold wfAddr, IsValid. by destruct (z a). Qed.

Lemma wfAddr_AddrFrom4 v : 0 ≤ v < two32 → wfAddr (AddrFrom4 v).
Proof. unfold wfAddr, AddrFrom4, two32. simpl. lia. Qed.

(** A well-formed address is determined by its family and its value. *)
Lemma val_inj a b : wfAddr a → wfAddr b → z a = z b → val a = val b → a = b.
Proof.
  intros Ha Hb Hz Hv.
  pose proof (wfAddr_bounds _ Ha) as (Hah & Hal & _).
  pose proof (wfAddr_bounds _ Hb) as (Hbh & Hbl & _).
  destruct a as [h l k], b as [h' l' k']. unfold val, two64 in *.
  simpl in *. subst k'.
  assert (h = h') by nia. subst h'.
  assert (l = l') by lia. by subst l'.
Qed.

(** Below the last address of the family, [Next] is the successor. *)
Lemma Next_succ a :
  wfAddr a → val a < maxVal (z a) →
  wfAddr (Next a) ∧ z (Next a) = z a ∧ val (Next a) = val a + 1.
Proof.
  destruct a as [h l k]. unfold wfAddr, val, maxVal, Next, addOne, Is4.
  simpl. destruct k; simpl; [done| |].
  - intros [-> Hl] Hlt. unfold two32, two64 in *.
    rewrite (Z.mod_small (l + 1)) by lia.
    rewrite (Z.div_small (l + 1)) by lia.
    rewrite Z.add_0_l, Z.mod_0_l by lia.
    replace ((l + 1) mod 2 ^ 32) with (l + 1 - 0xffff00000000).
    + destruct (Z.eqb_spec (l + 1 - 0xffff00000000) 0); [lia|].
      simpl. split_and!; (done || lia).
    + apply Z.mod_unique with (q := 0xffff); lia.
  - intros [Hh Hl] Hlt. unfold two64 in *.
    destruct (decide (l + 1 < 2 ^ 64)) as [Hs|Hs].
    + rewrite (Z.mod_small (l + 1)) by lia.
      rewrite (Z.div_small (l + 1)) by lia.
      rewrite Z.add_0_r, (Z.mod_small h) by lia.
      destruct (Z.eqb_spec (l + 1) 0); [lia|].
      rewrite andb_false_r. simpl. split_and!; (done || lia).
    + assert (l = 2 ^ 64 - 1) as -> by lia.
      replace (2 ^ 64 - 1 + 1) with (1 * 2 ^ 64) by lia.
      rewrite Z.mod_mul, Z.div_mul by lia.
      rewrite (Z.mod_small (h + 1)) by lia.
      destruct (Z.eqb_spec (h + 1) 0); [lia|]. simpl.
      split_and!; (done || lia).
Qed.

(** Within a family, [Compare] orders by value. *)
Lemma Compare_lt a b :
  wfAddr a → wfAddr b → z a = z b →
  Compare a b = -1 ↔ val a < val b.
Proof.
  intros Ha Hb Hz.
  pose proof (wfAddr_bounds _ Ha) as (Hah & Hal & _).
  pose proof (wfAddr_bounds _ Hb) as (Hbh & Hbl & _).
  unfold Compare, BitLen, val. rewrite Hz.
  unfold two64 in *.
  rewrite Z.ltb_irrefl.
  replace (_ >? _) with false by (by destruct (z b)).
  destruct (Z.ltb_spec (hi a) (hi b)); [split; [nia|done]|].
  destruct (Z.gtb_spec (hi a) (hi b)); [split; [done|nia]|].
  destruct (Z.ltb_spec (lo a) (lo b)); [split; [nia|done]|].
  destruct (Z.gtb_spec (lo a) (lo b)); split; (done || nia).
Qed.

End netip_facts.

Import netip_facts.

(** * C1: the bijection invariant *)

Lemma scanRange_candidate fuel a2d rd ip toIP a w prev :
  scanRange fuel a2d rd ip toIP = Some (Some (a, w, prev)) →
  candidateOf a2d rd a w prev.
Proof.
  revert ip. induction fuel as [|fuel IH]; intros ip; simpl; [done|].
  case_decide; [done|].
  destruct (a2d !! ip) as [ww|] eqn:Hip.
  - destruct (Before (LastUsed ww) rd) eqn:Hb.
    + intros [= <- <- <-]. exists ww. unfold Before in Hb. split_and!; [done..|lia].
    + apply IH.
  - intros [= <- <- <-]. done.
Qed.

Lemma unusedIPV4_ranges_candidate fuel a2d ranges rd a w prev :
  unusedIPV4_ranges fuel a2d ranges rd = Some (a, w, prev, None) →
  candidateOf a2d rd a w prev.
Proof.
  induction ranges as [|r rest IH]; simpl; [done|].
  destruct (negb _ || negb _); [done|].
  destruct (scanRange fuel a2d rd (From r) (To r)) as [[[[ip u] p]|]|] eqn:Hs;
    [|done..].
  intros [= <- <- <-]. by eapply scanRange_candidate.
Qed.

Lemma peerInv_new : peerInv newPeerState.
Proof. split; intros ? ?; simpl; by rewrite lookup_empty. Qed.

(** Refreshing the timestamp of an entry keeps the invariant. *)
Lemma peerInv_touch ps a ww t :
  peerInv ps → addrToDomain ps !! a = Some ww →
  peerInv (mkPeerState (domainToAddr ps)
             (<[a := mkWhereWhen (Domain ww) t]> (addrToDomain ps))).
Proof.
  intros [Hf Hb] Ha. split.
  - intros d a' Hd. simpl in *. destruct (decide (a = a')) as [<-|Hne].
    + rewrite lookup_insert_eq. destruct (Hf _ _ Hd) as (ww' & Hw & <-).
      eexists; split; [done|]. simpl. congruence.
    + rewrite lookup_insert_ne; [|done]. by apply Hf.
  - intros a' ww'. simpl. destruct (decide (a = a')) as [<-|Hne].
    + rewrite lookup_insert_eq. intros [= <-]. simpl. by apply (Hb _ _ Ha).
    + rewrite lookup_insert_ne; [|done]. apply Hb.
Qed.

(** Binding an unmapped domain to a scan candidate keeps the invariant. *)
Lemma peerInv_allocate ps domain rd a w prev t :
  peerInv ps → domainToAddr ps !! domain = None →
  candidateOf (addrToDomain ps) rd a w prev →
  peerInv (mkPeerState
             (let d2a := <[domain := a]> (domainToAddr ps) in
              if w then delete prev d2a else d2a)
             (<[a := mkWhereWhen domain t]> (addrToDomain ps))).
Proof.
  intros [Hf Hb] Hd Hc.
  assert (Hfresh : ∀ a' ww, addrToDomain ps !! a' = Some ww → Domain ww ≠ domain).
  { intros a' ww Ha' <-. apply Hb in Ha'. congruence. }
  destruct w; simpl in *.
  - destruct Hc as (ww & Ha & <- & _).
    pose proof (Hfresh _ _ Ha) as Hne.
    split.
    + intros d a'. simpl. rewrite lookup_delete. case_decide as Hd'; [done|].
      rewrite lookup_insert. case_decide as Hdd.
      * intros [= <-]. rewrite lookup_insert_eq. by eexists.
      * intros Hda. destruct (Hf _ _ Hda) as (ww' & Hw' & Heq).
        destruct (decide (a = a')) as [<-|?]; [congruence|].
        rewrite lookup_insert_ne; [|done]. eauto.
    + intros a' ww'. simpl. rewrite lookup_insert. case_decide as Haa.
      * subst a'. intros [= <-]. simpl. rewrite lookup_delete_ne; [|done].
        by rewrite lookup_insert_eq.
      * intros Ha'. pose proof (Hb _ _ Ha') as Hfw.
        rewrite lookup_delete_ne.
        -- rewrite lookup_insert_ne; [done|]. intros ->. by eapply Hfresh.
        -- intros Heq. rewrite <- Heq in Hfw. apply Hb in Ha. congruence.
  - destruct Hc as [Ha ->]. split.
    + intros d a'. simpl. rewrite lookup_insert. case_decide as Hdd.
      * intros [= <-]. rewrite lookup_insert_eq. by eexists.
      * intros Hda. destruct (Hf _ _ Hda) as (ww' & Hw' & Heq).
        destruct (decide (a = a')) as [<-|?]; [congruence|].
        rewrite lookup_insert_ne; [|done]. eauto.
    + intros a' ww'. simpl. rewrite lookup_insert. case_decide as Haa.
      * subst a'. intros [= <-]. simpl. by rewrite lookup_insert_eq.
      * intros Ha'. rewrite lookup_insert_ne; [by apply Hb|].
        intros ->. by eapply Hfresh.
Qed.

Lemma poolInv_storePeer ipp nid ps :
  poolInv ipp → peerInv ps → poolInv (storePeer ipp nid ps).
Proof.
  intros Hp Hps nid' ps'. simpl. rewrite lookup_insert.
  case_decide; [by intros [= <-]|apply Hp].
Qed.

Lemma allocate_poolInv fuel ipp nid ps domain rd t ipp' r :
  poolInv ipp → peerInv ps → domainToAddr ps !! domain = None →
  allocate fuel ipp nid ps domain rd t = Some (ipp', r) →
  poolInv ipp'.
Proof.
  intros Hp Hps Hd. unfold allocate, unusedIPV4.
  destruct (unusedIPV4_ranges _ _ _ _) as [[[[a w] prev] [err|]]|] eqn:Hu;
    [by intros [= <- _]| |done].
  intros [= <- _]. apply poolInv_storePeer; [done|].
  eapply peerInv_allocate; [done..|]. by eapply unusedIPV4_ranges_candidate.
Qed.

Lemma applyCheckoutAddr_poolInv fuel ipp nid domain rd t ipp' logs r :
  poolInv ipp →
  applyCheckoutAddr fuel ipp nid domain rd t = Some (ipp', logs, r) →
  poolInv ipp'.
Proof.
  intros Hp. unfold applyCheckoutAddr.
  set (pp := match perPeerMap ipp !! nid with
             | Some ps => (ps, ipp)
             | None => (newPeerState, storePeer ipp nid newPeerState)
             end).
  assert (Hpp : peerInv pp.1 ∧ poolInv pp.2).
  { subst pp. destruct (perPeerMap ipp !! nid) as [ps|] eqn:Hn; simpl.
    - split; [by eapply Hp|done].
    - split; [apply peerInv_new|]. apply poolInv_storePeer; [done|].
      apply peerInv_new. }
  destruct pp as [ps ipp1]. destruct Hpp as [Hps Hp1]. simpl in *.
  destruct (domainToAddr ps !! domain) as [existing|] eqn:Hd.
  - destruct (addrToDomain ps !! existing) as [ww|] eqn:Ha.
    + intros [= <- _ _]. apply poolInv_storePeer; [done|].
      by apply peerInv_touch.
    + destruct Hps as [Hf _]. destruct (Hf _ _ Hd) as (? & ? & _). congruence.
  - destruct (allocate _ _ _ _ _ _ _) as [[ipp2 r2]|] eqn:Hal; [|done].
    simpl. intros [= <- _ _]. by eapply allocate_poolInv.
Qed.

Lemma applyMarkLastUsed_poolInv ipp from addr domain t :
  poolInv ipp → poolInv (applyMarkLastUsed ipp from addr domain t).1.1.
Proof.
  intros Hp. unfold applyMarkLastUsed.
  destruct (perPeerMap ipp !! from) as [ps|] eqn:Hn; [|done].
  destruct (addrToDomain ps !! addr) as [ww|] eqn:Ha; [|done].
  destruct (negb _); [done|]. destruct (After _ _); [done|]. simpl.
  apply poolInv_storePeer; [done|]. apply peerInv_touch; [by eapply Hp|done].
Qed.

Lemma Reachable_poolInv ipset ipp : Reachable ipset ipp → poolInv ipp.
Proof.
  induction 1 as [|fuel ipp nid d rd t ipp' logs r _ IH Happ|ipp nid0 a d t _ IH].
  - intros nid ps. simpl. by rewrite lookup_empty.
  - by eapply applyCheckoutAddr_poolInv.
  - by apply applyMarkLastUsed_poolInv.
Qed.

(** C1. For every peer of a pool state reached from the empty one by any
    sequence of checkoutAddr and markLastUsed applications, every domain
    [d] mapped in [domainToAddr] has a reverse entry
    [addrToDomain[domainToAddr[d]]] whose domain is [d]. *)
Theorem bijection_invariant ipset ipp nid ps d a :
  Reachable ipset ipp →
  perPeerMap ipp !! nid = Some ps →
  domainToAddr ps !! d = Some a →
  ∃ ww, addrToDomain ps !! a = Some ww ∧ Domain ww = d.
Proof.
  intros Hr Hn Hd. apply Reachable_poolInv in Hr.
  destruct (Hr _ _ Hn) as [Hf _]. by apply Hf.
Qed.

Lemma bijection_invariant_witness :
  ∃ ww, addrToDomain peerA !! addrX = Some ww ∧ Domain ww = "a.example"%string.
Proof.
  apply (bijection_invariant poolXY poolA 1 peerA "a.example" addrX).
  - eapply (reach_checkoutAddr poolXY 2%nat (NewConsensusIPPool poolXY)
              1 "a.example" 0 100).
    + apply reach_new.
    + vm_compute. reflexivity.
  - vm_compute. reflexivity.
  - vm_compute. reflexivity.
Defined.

(** * The scan as a first-fit search *)

(** Fuel only decides whether the loop gets to its end. *)
Lemma scanRange_mono fuel fuel' a2d rd ip toIP r :
  (fuel ≤ fuel')%nat →
  scanRange fuel a2d rd ip toIP = Some r →
  scanRange fuel' a2d rd ip toIP = Some r.
Proof.
  revert fuel' ip. induction fuel as [|fuel IH]; intros fuel' ip Hle; [done|].
  destruct fuel' as [|fuel']; [lia|]. simpl.
  case_decide; [done|]. destruct (a2d !! ip) as [ww|]; [|done].
  destruct (Before _ _); [done|]. apply IH. lia.
Qed.

Lemma unusedIPV4_ranges_mono fuel fuel' a2d ranges rd r :
  (fuel ≤ fuel')%nat →
  unusedIPV4_ranges fuel a2d ranges rd = Some r →
  unusedIPV4_ranges fuel' a2d ranges rd = Some r.
Proof.
  intros Hle. induction ranges as [|rg rest IH]; simpl; [done|].
  destruct (negb _ || negb _); [done|].
  destruct (scanRange fuel a2d rd (From rg) (To rg)) as [s|] eqn:Hs; [|done].
  rewrite (scanRange_mono _ _ _ _ _ _ _ Hle Hs).
  by destruct s as [[[? ?] ?]|].
Qed.

Section Scan.
Variables (a2d : gmap Addr whereWhen) (rd : Instant).

Lemma scanRange_finds toIP X w prev (k : nat) :
  ∀ ip,
    wfAddr ip → wfAddr toIP → wfAddr X →
    netip.z ip = netip.z toIP → netip.z X = netip.z toIP →
    val X = val ip + Z.of_nat k → val X ≤ val toIP →
    (∀ a, wfAddr a → netip.z a = netip.z toIP →
          val ip ≤ val a < val X → held a2d rd a) →
    candidateOf a2d rd X w prev →
    ∀ fuel, (k < fuel)%nat →
            scanRange fuel a2d rd ip toIP = Some (Some (X, w, prev)).
Proof.
  induction k as [|k IH]; intros ip Hip Hto HX Hzi HzX Hv Hle Hheld Hc
                                 [|fuel] Hf; try lia; simpl.
  - assert (ip = X) as -> by (apply val_inj; [done..|congruence|lia]).
    case_decide as Hcmp; [apply Compare_lt in Hcmp; [lia|done|done|by symmetry]|].
    unfold candidateOf in Hc. destruct w.
    + destruct Hc as (ww & -> & <- & Hlt). unfold Before.
      by destruct (Z.ltb_spec (LastUsed ww) rd); [|lia].
    + by destruct Hc as [-> ->].
  - case_decide as Hcmp; [apply Compare_lt in Hcmp; [lia|done|done|by symmetry]|].
    destruct (Hheld ip) as (ww & -> & Hge); [done..|lia|].
    unfold Before. destruct (Z.ltb_spec (LastUsed ww) rd); [lia|].
    pose proof (wfAddr_bounds _ Hto) as (_ & _ & Hmax).
    destruct (Next_succ ip) as (Hn1 & Hn2 & Hn3); [done|rewrite Hzi; lia|].
    apply IH; try done; try congruence; try lia.
    intros a Ha Hza Hva. apply Hheld; [done..|lia].
Qed.

Lemma scanRange_passes toIP (k : nat) :
  ∀ ip,
    wfAddr ip → wfAddr toIP → netip.z ip = netip.z toIP →
    val toIP + 1 = val ip + Z.of_nat k →
    val toIP < maxVal (netip.z toIP) →
    (∀ a, wfAddr a → netip.z a = netip.z toIP →
          val ip ≤ val a ≤ val toIP → held a2d rd a) →
    ∀ fuel, (k < fuel)%nat → scanRange fuel a2d rd ip toIP = Some None.
Proof.
  induction k as [|k IH]; intros ip Hip Hto Hzi Hv Hmax Hheld [|fuel] Hf;
    try lia; simpl.
  - case_decide as Hcmp; [done|]. exfalso. apply Hcmp.
    apply Compare_lt; [done..|by symmetry|lia].
  - case_decide as Hcmp; [apply Compare_lt in Hcmp; [lia|done|done|by symmetry]|].
    destruct (Hheld ip) as (ww & -> & Hge); [done..|lia|].
    unfold Before. destruct (Z.ltb_spec (LastUsed ww) rd); [lia|].
    destruct (Next_succ ip) as (Hn1 & Hn2 & Hn3); [done|rewrite Hzi; lia|].
    apply IH; try done; try congruence; try lia.
    intros a Ha Hza Hva. apply Hheld; [done..|lia].
Qed.

Lemma scanRange_passedOver r :
  passedOver a2d rd r →
  ∃ fuel0, ∀ fuel, (fuel0 ≤ fuel)%nat →
    scanRange fuel a2d rd (From r) (To r) = Some None.
Proof.
  intros ((Hf & Ht & Hz & Hle) & Hend & Hheld).
  pose proof (wfAddr_bounds _ Ht) as (_ & _ & Hmax).
  exists (S (Z.to_nat (val (To r) + 1 - val (From r)))). intros fuel Hfuel.
  eapply (scanRange_passes (To r) (Z.to_nat (val (To r) + 1 - val (From r))));
    [done..|lia|unfold endsFamily in Hend; lia| |lia].
  intros a Ha Hza Hva. by apply Hheld.
Qed.

(** First fit: the ranges in [pre] are passed over, [X] is the first
    candidate of the range [r]. *)
Lemma unusedIPV4_first_fit pre r post X w prev :
  Forall (passedOver a2d rd) pre →
  regular r → inRange r X →
  (∀ a, inRange r a → val a < val X → held a2d rd a) →
  candidateOf a2d rd X w prev →
  ∃ fuel0, ∀ fuel, (fuel0 ≤ fuel)%nat →
    unusedIPV4_ranges fuel a2d (pre ++ r :: post) rd = Some (X, w, prev, None).
Proof.
  intros Hpre (Hf & Ht & Hz & Hle) (HX & HzX & HvX) Hbefore Hc.
  induction Hpre as [|p pre Hp _ IH].
  - exists (S (Z.to_nat (val X - val (From r)))). intros fuel Hfuel. simpl.
    rewrite !wfAddr_valid by done. simpl.
    rewrite (scanRange_finds (To r) X w prev
               (Z.to_nat (val X - val (From r)))); try done; try lia.
    intros a Ha Hza Hva. apply Hbefore; [|lia]. split_and!; (done || lia).
  - destruct IH as [f1 IH]. destruct (scanRange_passedOver p Hp) as [f2 Hf2].
    exists (f1 `max` f2)%nat. intros fuel Hfuel. simpl.
    destruct Hp as ((Hpf & Hpt & _) & _).
    rewrite !wfAddr_valid by done. simpl.
    rewrite Hf2 by lia. apply IH. lia.
Qed.

(** With every range passed over, the scan reports exhaustion. *)
Lemma unusedIPV4_exhausted ranges :
  Forall (passedOver a2d rd) ranges →
  ∃ fuel0, ∀ fuel, (fuel0 ≤ fuel)%nat →
    unusedIPV4_ranges fuel a2d ranges rd
      = Some (netip.zero, false, EmptyString, Some errExhausted).
Proof.
  induction 1 as [|p ranges Hp _ [f1 IH]].
  - by exists 0%nat.
  - destruct (scanRange_passedOver p Hp) as [f2 Hf2].
    exists (f1 `max` f2)%nat. intros fuel Hfuel. simpl.
    destruct Hp as ((Hpf & Hpt & _) & _).
    rewrite !wfAddr_valid by done. simpl.
    rewrite Hf2 by lia. apply IH. lia.
Qed.

End Scan.

(** With [X] the only candidate of the Address Set, the scan returns it. *)
Lemma unusedIPV4_only_candidate a2d rd ranges X w prev :
  Forall regular ranges →
  Forall (λ r, ¬ endsFamily r) ranges →
  inPool ranges X →
  candidateOf a2d rd X w prev →
  (∀ a, inPool ranges a → a ≠ X → held a2d rd a) →
  ∃ fuel0, ∀ fuel, (fuel0 ≤ fuel)%nat →
    unusedIPV4_ranges fuel a2d ranges rd = Some (X, w, prev, None).
Proof.
  induction ranges as [|r rest IH]; intros Hreg Hnw Hin Hc Hheld.
  - destruct Hin as (r & Hr & _). by apply elem_of_nil in Hr.
  - apply Forall_cons in Hreg as [Hr Hreg]. apply Forall_cons in Hnw as [Hw Hnw].
    assert (HX : wfAddr X) by (by destruct Hin as (? & _ & ? & _)).
    destruct (decide (netip.z X = netip.z (To r)
                      ∧ val (From r) ≤ val X ≤ val (To r))) as [Hhere|Hnot].
    + apply (unusedIPV4_first_fit a2d rd [] r rest X w prev); try done.
      intros a Ha Hlt. apply Hheld; [|intros ->; lia].
      exists r. split; [apply list_elem_of_here|done].
    + assert (Hp : passedOver a2d rd r).
      { split_and!; [done..|]. intros a Ha. apply Hheld.
        - exists r. split; [apply list_elem_of_here|done].
        - intros ->. apply Hnot. by destruct Ha as (_ & ? & ?). }
      destruct IH as [f1 IH]; [done|done| |done| |].
      * destruct Hin as (r' & [->|Hr']%elem_of_cons & Hin').
        -- exfalso. apply Hnot. by destruct Hin' as (_ & ? & ?).
        -- by exists r'.
      * intros a (r' & Hr' & Ha) Hne. apply Hheld; [|done].
        exists r'. split; [by apply list_elem_of_further|done].
      * destruct (scanRange_passedOver a2d rd r Hp) as [f2 Hf2].
        exists (f1 `max` f2)%nat. intros fuel Hfuel. simpl.
        destruct Hr as (Hrf & Hrt & _).
        rewrite !wfAddr_valid by done. simpl.
        rewrite Hf2 by lia. apply IH. lia.
Qed.

(** * C2: the retry bound of the reader *)

Lemma retryDomainLookup_body view from addr n :
  retryDomainLookup view from addr n =
    match loadDomain (view n) from addr with
    | (_, Some ww) => (Some ww, [EvLoad])
    | (foundPeerState, None) =>
        if decide (n > 4)
        then (None, [EvLoad;
                     EvLog (if foundPeerState then LogAddrNotRecognized addr
                            else LogPeerStateAbsent from)])
        else let r := retryDomainLookup view from addr (n + 1) in
             (r.1, EvLoad :: EvSleep (timeToWait n) :: r.2)
    end.
Proof.
  rewrite retryDomainLookup_equation_1.
  destruct (loadDomain (view n) from addr) as [found [ww|]].
  - apply retryDomainLookup_clause_1_equation_1.
  - rewrite retryDomainLookup_clause_1_equation_2.
    destruct (decide (n > 4)).
    + apply retryDomainLookup_clause_1_clause_2_equation_1.
    + apply retryDomainLookup_clause_1_clause_2_equation_2.
Qed.

(** A miss reported by an attempt numbered [5 - k] comes after the waits of
    the attempts [5 - k] to [4], each before the next lookup. *)
Lemma retryDomainLookup_miss_trace view from addr (k : nat) :
  (k ≤ 5)%nat →
  let r := retryDomainLookup view from addr (5 - Z.of_nat k) in
  r.1 = None →
  loads r.2 = S k
  ∧ sleeps r.2 = timeToWait <$> seqZ (5 - Z.of_nat k) (Z.of_nat k).
Proof.
  induction k as [|k IH]; intros Hk; simpl.
  - rewrite retryDomainLookup_body.
    by destruct (loadDomain _ _ _) as [found [ww|]].
  - rewrite retryDomainLookup_body.
    destruct (loadDomain _ _ _) as [found [ww|]]; simpl; [done|].
    destruct (decide (_ > 4)) as [?|_]; [lia|]. simpl.
    replace (5 - Z.of_nat (S k) + 1) with (5 - Z.of_nat k) by lia.
    intros Hmiss. destruct (IH ltac:(lia) Hmiss) as [-> ->].
    split; [done|]. rewrite (seqZ_cons (5 - Z.of_nat (S k))) by lia. simpl.
    do 3 f_equal; lia.
Qed.

(** With the pair absent at every attempt from [5 - k] on, the lookup
    misses. *)
Lemma retryDomainLookup_absent view from addr (k : nat) :
  (k ≤ 5)%nat →
  (∀ n, 5 - Z.of_nat k ≤ n ≤ 5 → absentFrom (view n) from addr) →
  (retryDomainLookup view from addr (5 - Z.of_nat k)).1 = None.
Proof.
  induction k as [|k IH]; intros Hk Habs.
  - rewrite retryDomainLookup_body.
    pose proof (Habs (5 - Z.of_nat 0) ltac:(lia)) as Ha. unfold absentFrom in Ha.
    by destruct (loadDomain _ _ _) as [found [ww|]].
  - rewrite retryDomainLookup_body.
    pose proof (Habs (5 - Z.of_nat (S k)) ltac:(lia)) as Ha. unfold absentFrom in Ha.
    destruct (loadDomain _ _ _) as [found [ww|]]; simpl in *; [done|].
    destruct (decide (_ > 4)) as [?|_]; [lia|]. simpl.
    replace (5 - Z.of_nat (S k) + 1) with (5 - Z.of_nat k) by lia.
    apply IH; [lia|]. intros n Hn. apply Habs. lia.
Qed.

(** C2 (as amended). A lookup of a (peer, address) pair that is absent from
    the local pool state at each attempt makes six attempts, the first and
    five retries, waits 100, 200, 400, 800 and 1600 milliseconds before the
    retries, 3100 in all, and only then returns the miss. *)
Theorem retry_bound `{JSON} `{commandExecutor}
    (view : Z → ConsensusIPPool) (from : NodeID) (addr : Addr)
    (updatedAt : Instant) :
  (∀ n, 0 ≤ n ≤ 5 → absentFrom (view n) from addr) →
  let run := DomainForIP view from addr updatedAt in
  returned run = (EmptyString, false)
  ∧ spawned run = None
  ∧ loads (trace run) = 6%nat
  ∧ sleeps (trace run) = [100; 200; 400; 800; 1600]
  ∧ totalSleep (trace run) = 3100.
Proof.
  intros Habs.
  pose proof (retryDomainLookup_absent view from addr 5 ltac:(lia)) as Hmiss.
  pose proof (retryDomainLookup_miss_trace view from addr 5 ltac:(lia)) as Htr.
  change (5 - Z.of_nat 5) with 0 in Hmiss, Htr.
  specialize (Hmiss Habs). specialize (Htr Hmiss).
  unfold DomainForIP, totalSleep.
  destruct (retryDomainLookup view from addr 0) as [[ww|] tr]; [done|].
  simpl in *. destruct Htr as [-> ->]. by vm_compute.
Qed.

Lemma retry_bound_witness :
  let run := @DomainForIP exampleJSON failingExecutor
               (λ _, NewConsensusIPPool poolXY) 1 addrX 0 in
  returned run = (EmptyString, false)
  ∧ spawned run = None
  ∧ loads (trace run) = 6%nat
  ∧ sleeps (trace run) = [100; 200; 400; 800; 1600]
  ∧ totalSleep (trace run) = 3100.
Proof.
  apply (@retry_bound exampleJSON failingExecutor).
  intros n Hn. reflexivity.
Defined.

Lemma retry_bound_as_stated_fails :
  ¬ @retry_bound_as_stated exampleJSON failingExecutor
      (λ _, NewConsensusIPPool poolXY) 1 addrX 0.
Proof.
  intros Hs. destruct Hs as (_ & Hloads & _); [done|].
  pose proof (retryDomainLookup_absent (λ _, NewConsensusIPPool poolXY)
                1 addrX 5 ltac:(lia) ltac:(done)) as Hmiss.
  pose proof (retryDomainLookup_miss_trace (λ _, NewConsensusIPPool poolXY)
                1 addrX 5 ltac:(lia) Hmiss) as [Htr _].
  change (5 - Z.of_nat 5) with 0 in Hmiss, Htr.
  revert Hloads. unfold DomainForIP.
  destruct (retryDomainLookup _ 1 addrX 0) as [[ww|] tr]; [done|].
  simpl in *. lia.
Qed.

(** * C3: the usage refresh started by a successful read *)

(** Peer 1 asks for the domain of 10.0.0.1 while raft has no leader: the
    read returns "a.example" and the goroutine panics. *)
Lemma refresh_failure_only_logged_as_stated_fails :
  ¬ @refresh_failure_only_logged_as_stated exampleJSON failingExecutor
      (λ _, poolA) 1 addrX 200.
Proof.
  intros Hs.
  specialize (Hs [LogMarkRaftError "leadership lost"]
                 (GoPanic "leadership lost")).
  assert (Hrun : (retryDomainLookup (λ _, poolA) 1 addrX 0)
                 = (Some (mkWhereWhen "a.example" 100), [EvLoad])).
  { by rewrite retryDomainLookup_body. }
  unfold DomainForIP in Hs. rewrite Hrun in Hs.
  by specialize (Hs eq_refl).
Qed.

(** C3 (as amended). When [DomainForIP] resolves the address, the pair it
    returns is the stored domain and [true], whatever the codec and the
    executor do afterwards; a failure of the asynchronously submitted
    markLastUsed write, whether raft rejects the submission or the state
    machine returns an error, is logged and then raised as a panic in the
    background goroutine: it does not stay within logging. *)
Theorem refresh_failure_panics `{JSON} `{commandExecutor}
    (view : Z → ConsensusIPPool) (from : NodeID) (addr : Addr)
    (updatedAt : Instant) (ww : whereWhen) (bs : bytes) :
  (retryDomainLookup view from addr 0).1 = Some ww →
  marshalMarkLastUsedArgs
    (mkMarkLastUsedArgs from addr (Domain ww) updatedAt) = inr bs →
  let run := DomainForIP view from addr updatedAt in
  let submitted := ExecuteCommand (mkCommand "markLastUsed" bs) in
  returned run = (Domain ww, true)
  ∧ (∀ err, submitted.2 = Some err →
            spawned run = Some ([LogMarkRaftError err], GoPanic err))
  ∧ (∀ err, submitted.2 = None → Err submitted.1 = Some err →
            spawned run = Some ([LogMarkStateMachineError], GoPanic err))
  ∧ (submitted.2 = None → Err submitted.1 = None →
     spawned run = Some ([], GoDone)).
Proof.
  intros Hfound Hbs. unfold DomainForIP.
  destruct (retryDomainLookup view from addr 0) as [o tr]. simpl in Hfound.
  subst o. simpl. unfold refreshLastUsed, markLastUsed. rewrite Hbs.
  destruct (ExecuteCommand _) as [res [e|]]; simpl.
  - split_and!; [done|by intros ? [= <-]|done..].
  - destruct (Err res) as [e|]; simpl.
    + split_and!; [done|done|by intros ? _ [= <-]|done].
    + by split_and!.
Qed.

Lemma refresh_failure_panics_witness :
  let run := @DomainForIP exampleJSON failingExecutor (λ _, poolA) 1 addrX 200 in
  let submitted :=
    @ExecuteCommand failingExecutor (mkCommand "markLastUsed" [Byte.x01]) in
  returned run = ("a.example"%string, true)
  ∧ (∀ err, submitted.2 = Some err →
            spawned run = Some ([LogMarkRaftError err], GoPanic err))
  ∧ (∀ err, submitted.2 = None → Err submitted.1 = Some err →
            spawned run = Some ([LogMarkStateMachineError], GoPanic err))
  ∧ (submitted.2 = None → Err submitted.1 = None →
     spawned run = Some ([], GoDone)).
Proof.
  apply (@refresh_failure_panics exampleJSON failingExecutor (λ _, poolA)
           1 addrX 200 (mkWhereWhen "a.example" 100) [Byte.x01]).
  - by rewrite retryDomainLookup_body.
  - reflexivity.
Defined.

(** * C4: the fast path of a checkout *)

(** The checkout returns 10.0.0.1 again; the scan would have given
    10.0.0.2. *)
Lemma fast_path_as_stated_fails :
  ¬ fast_path_as_stated 3 poolOutOfSync 1 "a.example" 0 100.
Proof.
  intros Hs.
  specialize (Hs addrX (mkWhereWhen "b.example" 50) eq_refl eq_refl).
  assert (Hne : Domain (mkWhereWhen "b.example" 50) ≠ "a.example"%string)
    by done.
  specialize (Hs Hne). vm_compute in Hs. discriminate Hs.
Qed.

(** C4 (as amended). [applyCheckoutAddr] takes the fast path, refreshing
    lastUsed and returning the existing address without a scan, exactly when
    [domainToAddr[domain]] exists and [addrToDomain] has an entry for that
    address, whichever domain that entry names; only when the forward entry
    or the reverse entry is missing does it go on to the allocation scan. *)
Theorem fast_path_iff (fuel : nat) (ipp : ConsensusIPPool) (nid : NodeID)
    (domain : string) (reuseDeadline updatedAt : Instant) :
  let ps := peerOf ipp nid in
  let run := applyCheckoutAddr fuel ipp nid domain reuseDeadline updatedAt in
  (∀ existing ww,
      domainToAddr ps !! domain = Some existing →
      addrToDomain ps !! existing = Some ww →
      run = Some (storePeer ipp nid (refreshed ps existing ww updatedAt),
                  [], (existing, None)))
  ∧ (∀ existing,
      domainToAddr ps !! domain = Some existing →
      addrToDomain ps !! existing = None →
      run = allocated fuel ipp nid domain reuseDeadline updatedAt
              [LogOutOfSync])
  ∧ (domainToAddr ps !! domain = None →
     run = allocated fuel ipp nid domain reuseDeadline updatedAt []).
Proof.
  unfold applyCheckoutAddr, allocated, peerOf, withPeer.
  destruct (perPeerMap ipp !! nid) as [ps|] eqn:Hn; simpl.
  - split_and!.
    + by intros existing ww -> ->.
    + by intros existing -> ->.
    + by intros ->.
  - rewrite lookup_empty. split_and!; done.
Qed.

Lemma fast_path_iff_witness :
  applyCheckoutAddr 0 poolA 1 "a.example" 0 300
    = Some (storePeer poolA 1
              (refreshed peerA addrX (mkWhereWhen "a.example" 100) 300),
            [], (addrX, None)).
Proof.
  apply (fast_path_iff 0 poolA 1 "a.example" 0 300); reflexivity.
Defined.

(** * C5: the scan at the last address of a family *)

Lemma inPool_poolLast a : inPool poolLast a → a = addrLast.
Proof.
  intros (r & Hr & Ha & Hz & Hv). apply list_elem_of_singleton in Hr. subst r.
  apply val_inj; [done|by apply wfAddr_AddrFrom4|done|].
  simpl in Hv. lia.
Qed.

(** C5 (the code at the failing input). With the only address of the set
    recorded and not expired, no address is eligible; the scan nevertheless
    reports no exhaustion: [Next] wraps to the zero Addr, which the loop
    condition lets through, and the scan returns it as a free address. The
    checkout built on it then hands out the invalid address. *)
Theorem unusedIPV4_wraps_at_last_address (fuel : nat) :
  (∀ a, inPool poolLast a → held (addrToDomain peerLast) 50 a)
  ∧ ¬ inPool poolLast netip.zero
  ∧ unusedIPV4 (S (S fuel)) peerLast poolLast 50
      = Some (netip.zero, false, EmptyString, None)
  ∧ snd <$> applyCheckoutAddr (S (S fuel))
               (storePeer (NewConsensusIPPool poolLast) 1 peerLast)
               1 "y.example" 50 200
      = Some (netip.zero, None).
Proof.
  split_and!.
  - intros a ->%inPool_poolLast. by exists (mkWhereWhen "x.example" 100).
  - by intros ?%inPool_poolLast.
  - reflexivity.
  - reflexivity.
Qed.

(** * C6: marking is idempotent *)

Lemma storePeer_same ipp nid ps :
  perPeerMap ipp !! nid = Some ps → storePeer ipp nid ps = ipp.
Proof.
  intros Hn. destruct ipp as [set m]. unfold storePeer. simpl in *.
  by rewrite insert_id.
Qed.

Lemma applyMarkLastUsed_guarded ipp from addr domain t :
  markGuarded ipp from addr domain t →
  (applyMarkLastUsed ipp from addr domain t).1.1 = ipp.
Proof.
  unfold markGuarded, applyMarkLastUsed.
  destruct (perPeerMap ipp !! from) as [ps|] eqn:Hn; [|done].
  destruct (addrToDomain ps !! addr) as [ww|] eqn:Ha; [|done].
  destruct (String.eqb_spec (Domain ww) domain) as [Heq|Hne]; simpl; [|done].
  intros [?|Hle]; [done|]. unfold After.
  destruct (Z.ltb_spec t (LastUsed ww)); [done|]. simpl.
  assert (t = LastUsed ww) as -> by lia.
  apply storePeer_same. rewrite Hn. f_equal.
  destruct ps as [d2a a2d]. simpl in *. f_equal.
  symmetry. apply insert_id. rewrite Ha. by destruct ww.
Qed.

Lemma applyMarkLastUsed_then_guarded ipp from addr domain t t' :
  t' ≤ t →
  markGuarded (applyMarkLastUsed ipp from addr domain t).1.1
              from addr domain t'.
Proof.
  intros Hle. unfold markGuarded, applyMarkLastUsed.
  destruct (perPeerMap ipp !! from) as [ps|] eqn:Hn; simpl; [|by rewrite Hn].
  destruct (addrToDomain ps !! addr) as [ww|] eqn:Ha; simpl;
    [|by rewrite Hn, Ha].
  destruct (String.eqb_spec (Domain ww) domain) as [Heq|Hne]; simpl;
    [|rewrite Hn, Ha; by left].
  unfold After. destruct (Z.ltb_spec t (LastUsed ww)); simpl.
  - rewrite Hn, Ha. right. lia.
  - rewrite lookup_insert_eq. simpl. rewrite lookup_insert_eq. simpl.
    right. lia.
Qed.

(** C6. [applyMarkLastUsed] leaves the pool state unchanged when the peer is
    unknown, the address is untracked, the stored domain differs, or the
    timestamp is less than or equal to the stored lastUsed; so a second
    application with an equal or smaller timestamp changes nothing. *)
Theorem applyMarkLastUsed_idempotent (ipp : ConsensusIPPool) (from : NodeID)
    (addr : Addr) (domain : string) (t t' : Instant) :
  (markGuarded ipp from addr domain t →
   (applyMarkLastUsed ipp from addr domain t).1.1 = ipp)
  ∧ (t' ≤ t →
     let ipp1 := (applyMarkLastUsed ipp from addr domain t).1.1 in
     (applyMarkLastUsed ipp1 from addr domain t').1.1 = ipp1).
Proof.
  split; [apply applyMarkLastUsed_guarded|].
  intros Hle. simpl. apply applyMarkLastUsed_guarded.
  by apply applyMarkLastUsed_then_guarded.
Qed.

Lemma applyMarkLastUsed_idempotent_witness :
  (applyMarkLastUsed poolA 1 addrX "a.example" 100).1.1 = poolA
  ∧ (let ipp1 := (applyMarkLastUsed poolA 1 addrX "a.example" 200).1.1 in
     (applyMarkLastUsed ipp1 1 addrX "a.example" 150).1.1 = ipp1).
Proof.
  split.
  - apply (proj1 (applyMarkLastUsed_idempotent poolA 1 addrX "a.example"
                    100 100)).
    vm_compute. right. discriminate.
  - apply (proj2 (applyMarkLastUsed_idempotent poolA 1 addrX "a.example"
                    200 150)).
    vm_compute. discriminate.
Defined.

(** * C10: when replay halts; replay and the steps of the scans *)

Lemma allocate_mono fuel fuel' ipp nid ps domain rd t r :
  (fuel ≤ fuel')%nat →
  allocate fuel ipp nid ps domain rd t = Some r →
  allocate fuel' ipp nid ps domain rd t = Some r.
Proof.
  intros Hle. unfold allocate, unusedIPV4.
  destruct (unusedIPV4_ranges fuel _ _ _) as [u|] eqn:Hu; [|done].
  by rewrite (unusedIPV4_ranges_mono _ _ _ _ _ _ Hle Hu).
Qed.

Lemma applyCheckoutAddr_mono fuel fuel' ipp nid domain rd t r :
  (fuel ≤ fuel')%nat →
  applyCheckoutAddr fuel ipp nid domain rd t = Some r →
  applyCheckoutAddr fuel' ipp nid domain rd t = Some r.
Proof.
  intros Hle. unfold applyCheckoutAddr.
  destruct (match perPeerMap ipp !! nid with
            | Some ps => (ps, ipp)
            | None => (newPeerState, storePeer ipp nid newPeerState)
            end) as [ps ipp1].
  destruct (domainToAddr ps !! domain) as [existing|].
  - destruct (addrToDomain ps !! existing) as [ww|]; [done|].
    destruct (allocate fuel _ _ _ _ _ _) as [a|] eqn:Ha; [|done].
    by rewrite (allocate_mono _ _ _ _ _ _ _ _ _ Hle Ha).
  - destruct (allocate fuel _ _ _ _ _ _) as [a|] eqn:Ha; [|done].
    by rewrite (allocate_mono _ _ _ _ _ _ _ _ _ Hle Ha).
Qed.

Section DispatcherFacts.
Context `{codec : JSON}.

Lemma executeCheckoutAddr_mono fuel fuel' ipp bs r :
  (fuel ≤ fuel')%nat →
  executeCheckoutAddr fuel ipp bs = Some r →
  executeCheckoutAddr fuel' ipp bs = Some r.
Proof.
  intros Hle. unfold executeCheckoutAddr.
  destruct (unmarshalCheckoutAddrArgs bs) as [err|args]; [done|].
  destruct (applyCheckoutAddr fuel _ _ _ _ _) as [a|] eqn:Ha; [|done].
  by rewrite (applyCheckoutAddr_mono _ _ _ _ _ _ _ _ Hle Ha).
Qed.

Lemma Apply_mono fuel fuel' ipp data r :
  (fuel ≤ fuel')%nat →
  Apply fuel ipp data = Some r → Apply fuel' ipp data = Some r.
Proof.
  intros Hle. unfold Apply.
  destruct (unmarshalCommand data) as [err|c]; [done|].
  destruct (String.eqb (Name c) "checkoutAddr"); [|done].
  destruct (executeCheckoutAddr fuel _ _) as [e|] eqn:He; [|done].
  by rewrite (executeCheckoutAddr_mono _ _ _ _ _ Hle He).
Qed.

Lemma replay_mono fuel fuel' ipp entries r :
  (fuel ≤ fuel')%nat →
  replay fuel ipp entries = Some r → replay fuel' ipp entries = Some r.
Proof.
  intros Hle. revert ipp r.
  induction entries as [|data rest IH]; intros ipp r; simpl; [done|].
  destruct (Apply fuel ipp data) as [a|] eqn:Ha; [|done].
  rewrite (Apply_mono _ _ _ _ _ Hle Ha).
  destruct a as [[ipp' logs] [res|msg]]; [|done].
  destruct (replay fuel ipp' rest) as [q|] eqn:Hq; [|done].
  by rewrite (IH _ _ Hq).
Qed.

(** The entries raft delivers keep the pool among the reachable states. *)
Lemma Apply_Reachable ipSet fuel ipp data ipp' logs out :
  Reachable ipSet ipp →
  Apply fuel ipp data = Some (ipp', logs, out) →
  Reachable ipSet ipp'.
Proof.
  intros Hr. unfold Apply.
  destruct (unmarshalCommand data) as [err|c]; [by intros [= <- _ _]|].
  destruct (String.eqb (Name c) "checkoutAddr").
  - unfold executeCheckoutAddr.
    destruct (unmarshalCheckoutAddrArgs (Args c)) as [err|args]; simpl;
      [by intros [= <- _ _]|].
    destruct (applyCheckoutAddr _ _ _ _ _ _) as [[[ipp1 l1] [a e]]|] eqn:Ha;
      [|done].
    assert (Reachable ipSet ipp1) by (by eapply reach_checkoutAddr).
    destruct e as [e|]; [by intros [= <- _ _]|].
    by destruct (marshalAddr a); intros [= <- _ _].
  - destruct (String.eqb (Name c) "markLastUsed"); [|by intros [= <- _ _]].
    unfold executeMarkLastUsed.
    destruct (unmarshalMarkLastUsedArgs (Args c)) as [err|args]; simpl;
      [by intros [= <- _ _]|].
    pose proof (reach_markLastUsed ipSet ipp (ml_NodeID args) (ml_Addr args)
                  (ml_Domain args) (ml_UpdatedAt args) Hr) as Hm.
    destruct (applyMarkLastUsed _ _ _ _ _) as [[ipp1 l1] e].
    by destruct e; intros [= <- _ _].
Qed.

Lemma replay_Reachable ipSet fuel ipp entries ipp' halted rs :
  Reachable ipSet ipp →
  replay fuel ipp entries = Some (ipp', halted, rs) →
  Reachable ipSet ipp'.
Proof.
  revert ipp halted rs.
  induction entries as [|data rest IH]; intros ipp halted rs Hr; simpl.
  - by intros [= <- _ _].
  - destruct (Apply fuel ipp data) as [[[ipp1 l1] out]|] eqn:Ha; [|done].
    pose proof (Apply_Reachable _ _ _ _ _ _ _ Hr Ha) as Hr1.
    destruct out as [res|msg]; [|by intros [= <- _ _]].
    destruct (replay fuel ipp1 rest) as [[[ipp2 h2] rs2]|] eqn:Hq; [|done].
    intros [= <- _ _]. by eapply IH.
Qed.

(** C10. [Apply] panics when the bytes of the entry do not decode to a
    command and when the command name is neither checkoutAddr nor
    markLastUsed, and the replica applies nothing after that; when the
    name is one of the two and the argument payload does not decode,
    [Apply] returns the decoding error as the result of the command,
    leaves the state as it is, and the entries that follow are applied. *)
Theorem Apply_panics_or_returns (fuel : nat) (ipp : ConsensusIPPool)
    (data : bytes) (rest : list bytes) :
  (∀ err, unmarshalCommand data = inl err →
      Apply fuel ipp data
        = Some (ipp, [], Panicked ("failed to unmarshal command: " +:+ err))
      ∧ replay fuel ipp (data :: rest) = Some (ipp, true, []))
  ∧ (∀ c, unmarshalCommand data = inr c →
      Name c ≠ "checkoutAddr"%string → Name c ≠ "markLastUsed"%string →
      Apply fuel ipp data
        = Some (ipp, [], Panicked ("unrecognized command: " +:+ Name c))
      ∧ replay fuel ipp (data :: rest) = Some (ipp, true, []))
  ∧ (∀ c err, unmarshalCommand data = inr c →
      (Name c = "checkoutAddr"%string
       ∧ unmarshalCheckoutAddrArgs (Args c) = inl err)
      ∨ (Name c = "markLastUsed"%string
         ∧ unmarshalMarkLastUsedArgs (Args c) = inl err) →
      Apply fuel ipp data
        = Some (ipp, [], Returned (mkResult (Some err) []))
      ∧ replay fuel ipp (data :: rest)
        = (λ r, (r.1.1, r.1.2, mkResult (Some err) [] :: r.2))
            <$> replay fuel ipp rest).
Proof.
  split_and!.
  - intros err Hd. simpl. unfold Apply. by rewrite Hd.
  - intros c Hd Hc Hm. simpl. unfold Apply. rewrite Hd.
    destruct (String.eqb_spec (Name c) "checkoutAddr"); [done|].
    by destruct (String.eqb_spec (Name c) "markLastUsed").
  - intros c err Hd Hargs.
    assert (Ha : Apply fuel ipp data
                 = Some (ipp, [], Returned (mkResult (Some err) []))).
    { unfold Apply. rewrite Hd.
      destruct Hargs as [[-> Hargs]|[-> Hargs]]; simpl.
      - unfold executeCheckoutAddr. by rewrite Hargs.
      - unfold executeMarkLastUsed. by rewrite Hargs. }
    split; [done|]. simpl. rewrite Ha.
    by destruct (replay fuel ipp rest) as [[[ipp' halted] rs]|].
Qed.

End DispatcherFacts.

(** An empty entry, an entry with an unknown name, and a checkoutAddr with
    an empty payload followed by a good one. *)
Lemma Apply_panics_or_returns_witness :
  @replay exampleJSON 2 poolA [[]; [Byte.x00; Byte.x01]]
    = Some (poolA, true, [])
  ∧ @replay exampleJSON 2 poolA [[Byte.x02]; [Byte.x00; Byte.x01]]
    = Some (poolA, true, [])
  ∧ @replay exampleJSON 2 poolA [[Byte.x00]; [Byte.x00; Byte.x01]]
    = (λ r, (r.1.1, r.1.2,
             mkResult (Some "unexpected end of JSON input"%string) [] :: r.2))
        <$> @replay exampleJSON 2 poolA [[Byte.x00; Byte.x01]].
Proof.
  split_and!.
  - apply (proj1 (@Apply_panics_or_returns exampleJSON 2 poolA []
                    [[Byte.x00; Byte.x01]])
                 "unexpected end of JSON input"%string).
    reflexivity.
  - apply (proj1 (proj2 (@Apply_panics_or_returns exampleJSON 2 poolA
                           [Byte.x02] [[Byte.x00; Byte.x01]]))
                 (mkCommand "compact" [])).
    + reflexivity.
    + discriminate.
    + discriminate.
  - apply (proj2 (proj2 (@Apply_panics_or_returns exampleJSON 2 poolA
                           [Byte.x00] [[Byte.x00; Byte.x01]]))
                 (mkCommand "checkoutAddr" [])
                 "unexpected end of JSON input"%string).
    + reflexivity.
    + left. split; reflexivity.
Defined.

(** * C8: reuse of an expired address *)

(** C8 (as amended). Take an Address Set of well-formed ranges none of which
    ends at the last address of its family, and a peer state in which [X]
    has lastUsed strictly before reuseDeadline and every other address of
    the set is recorded and not expired. A checkoutAddr for a domain [d]
    other than the one recorded for [X], and which does not itself hold an
    address (its forward entry, if any, has no reverse entry), returns [X]:
    it records [domainToAddr[d] = X], deletes the forward entry of the
    previous domain and stores [{d, now}] at [addrToDomain[X]], so that
    resolving [X] afterwards returns [d]. *)
Theorem reuse_correctness `{JSON} `{commandExecutor} (ipp : ConsensusIPPool)
    (nid : NodeID) (ps : consensusPerPeerState) (X : Addr) (wwX : whereWhen)
    (d : string) (reuseDeadline updatedAt : Instant) :
  Forall regular (IPSet ipp) →
  Forall (λ r, ¬ endsFamily r) (IPSet ipp) →
  perPeerMap ipp !! nid = Some ps →
  inPool (IPSet ipp) X →
  addrToDomain ps !! X = Some wwX →
  LastUsed wwX < reuseDeadline →
  (∀ a, inPool (IPSet ipp) a → a ≠ X → held (addrToDomain ps) reuseDeadline a) →
  d ≠ Domain wwX →
  (∀ e, domainToAddr ps !! d = Some e → addrToDomain ps !! e = None) →
  reassigned ipp nid X (Domain wwX) d reuseDeadline updatedAt.
Proof.
  intros Hreg Hnw Hn Hin HX Hexp Hheld Hd Hnofast.
  destruct (unusedIPV4_only_candidate (addrToDomain ps) reuseDeadline
              (IPSet ipp) X true (Domain wwX)) as [fuel0 Hscan]; try done.
  { by exists wwX. }
  exists fuel0. intros fuel Hfuel. specialize (Hscan fuel Hfuel).
  set (ps' := mkPeerState
                (delete (Domain wwX) (<[d := X]> (domainToAddr ps)))
                (<[X := mkWhereWhen d updatedAt]> (addrToDomain ps))).
  assert (Hal : allocate fuel ipp nid ps d reuseDeadline updatedAt
                = Some (storePeer ipp nid ps', (X, None))).
  { unfold allocate, unusedIPV4. by rewrite Hscan. }
  exists (storePeer ipp nid ps'),
         (match domainToAddr ps !! d with
          | Some _ => [LogOutOfSync]
          | None => []
          end), ps'.
  split_and!.
  - unfold applyCheckoutAddr. rewrite Hn.
    destruct (domainToAddr ps !! d) as [e|] eqn:He.
    + rewrite (Hnofast e eq_refl). by rewrite Hal.
    + by rewrite Hal.
  - simpl. by rewrite lookup_insert_eq.
  - simpl. rewrite lookup_delete_ne by done. by rewrite lookup_insert_eq.
  - simpl. by rewrite lookup_delete_eq.
  - simpl. by rewrite lookup_insert_eq.
  - intros observedAt. unfold DomainForIP. rewrite retryDomainLookup_body.
    unfold loadDomain. simpl. rewrite lookup_insert_eq. simpl.
    by rewrite lookup_insert_eq.
Qed.

Lemma poolXY_regular : Forall regular poolXY.
Proof.
  repeat constructor; try (by apply wfAddr_AddrFrom4); by vm_compute.
Qed.

Lemma poolXY_no_wrap : Forall (λ r, ¬ endsFamily r) poolXY.
Proof. repeat constructor. by vm_compute. Qed.

Lemma poolXY_addrX : inPool poolXY addrX.
Proof.
  exists (mkRange addrX addrY). split; [apply list_elem_of_here|].
  split_and!; [by apply wfAddr_AddrFrom4|done|by vm_compute..].
Qed.

Lemma poolXY_others a : inPool poolXY a → a ≠ addrX → a = addrY.
Proof.
  intros (r & Hr & Ha & Hz & Hv) Hne.
  apply list_elem_of_singleton in Hr. subst r. simpl in *.
  apply val_inj; [done|by apply wfAddr_AddrFrom4|done|].
  destruct (decide (val a = val addrX)) as [Heq|Hneq].
  - exfalso. apply Hne. apply val_inj; [done|by apply wfAddr_AddrFrom4|done..].
  - change (val addrX) with 281470849515521 in *.
    change (val addrY) with 281470849515522 in *. lia.
Qed.

Lemma poolAB_others_held a :
  inPool (IPSet poolAB) a → a ≠ addrX → held (addrToDomain peerAB) 50 a.
Proof.
  intros Hin Hne. rewrite (poolXY_others a Hin Hne).
  exists (mkWhereWhen "b.example" 100). split; [reflexivity|simpl; lia].
Qed.

Lemma reuse_correctness_witness :
  @reassigned exampleJSON committingExecutor poolAB 1 addrX
    "a.example" "c.example" 50 200.
Proof.
  apply (@reuse_correctness exampleJSON committingExecutor poolAB 1 peerAB
           addrX (mkWhereWhen "a.example" 0) "c.example" 50 200).
  - apply poolXY_regular.
  - apply poolXY_no_wrap.
  - reflexivity.
  - apply poolXY_addrX.
  - reflexivity.
  - simpl. lia.
  - apply poolAB_others_held.
  - discriminate.
  - intros e He. vm_compute in He. discriminate He.
Defined.

(** A checkout of "b.example", which holds 10.0.0.2, returns 10.0.0.2 and
    leaves 10.0.0.1 with "a.example". *)
Lemma reuse_as_stated_fails :
  ¬ @reuse_as_stated exampleJSON committingExecutor poolAB 1 peerAB
      addrX (mkWhereWhen "a.example" 0) "b.example" 50 200.
Proof.
  intros Hs.
  destruct Hs as [fuel0 Hs];
    [apply poolXY_regular|apply poolXY_no_wrap|reflexivity|apply poolXY_addrX
    |reflexivity|simpl; lia|apply poolAB_others_held|discriminate|].
  destruct (Hs fuel0 ltac:(lia)) as (ipp' & logs & ps' & Hrun & _).
  vm_compute in Hrun. discriminate Hrun.
Qed.

(** * C9: a failed checkout of an unseen peer *)

(** C9. For a peer not yet in the pool state, a checkout that fails leaves
    the empty peer state it created at its start in the pool: the error is
    the exhaustion error, and the state differs from the one before. *)
Theorem exhausted_checkout_keeps_new_peer (fuel : nat) (ipp : ConsensusIPPool)
    (nid : NodeID) (domain : string) (reuseDeadline updatedAt : Instant)
    (ipp' : ConsensusIPPool) (logs : list logLine) (a : Addr) (err : error) :
  perPeerMap ipp !! nid = None →
  applyCheckoutAddr fuel ipp nid domain reuseDeadline updatedAt
    = Some (ipp', logs, (a, Some err)) →
  err = errExhausted
  ∧ ipp' = storePeer ipp nid newPeerState
  ∧ perPeerMap ipp' !! nid = Some newPeerState
  ∧ ipp' ≠ ipp.
Proof.
  intros Hn. unfold applyCheckoutAddr. rewrite Hn. simpl.
  rewrite lookup_empty. unfold allocate, unusedIPV4. simpl.
  destruct (unusedIPV4_ranges _ _ _ _) as [[[[a' w] prev] [e|]]|] eqn:Hu;
    simpl; [|done..].
  intros [= <- _ _ <-]. split_and!.
  - clear Hn. induction (IPSet ipp) as [|r rest IH]; simpl in Hu.
    + by injection Hu as _ _ _ <-.
    + destruct (negb _ || negb _); [by apply IH|].
      destruct (scanRange _ _ _ _ _) as [[[[? ?] ?]|]|]; [done|by apply IH|done].
  - done.
  - simpl. by rewrite lookup_insert_eq.
  - intros Heq. apply (f_equal (λ p, perPeerMap p !! nid)) in Heq.
    simpl in Heq. rewrite lookup_insert_eq in Heq. congruence.
Qed.

Lemma exhausted_checkout_keeps_new_peer_witness :
  errExhausted = errExhausted
  ∧ storePeer (NewConsensusIPPool []) 7 newPeerState
    = storePeer (NewConsensusIPPool []) 7 newPeerState
  ∧ perPeerMap (storePeer (NewConsensusIPPool []) 7 newPeerState) !! 7
    = Some newPeerState
  ∧ storePeer (NewConsensusIPPool []) 7 newPeerState ≠ NewConsensusIPPool [].
Proof.
  apply (exhausted_checkout_keeps_new_peer 1 (NewConsensusIPPool []) 7
           "a.example" 0 100 _ [] netip.zero errExhausted).
  - reflexivity.
  - reflexivity.
Defined.

(** * The scenario of the specification, run on the model *)

Example scenario_runs :
  scenario = Some ([(addrX, None); (addrY, None);
                    (netip.zero, Some errExhausted); (addrX, None)],
                   ("c.example"%string, true)).
Proof. vm_compute. reflexivity. Qed.

(** * Further properties of the handlers *)

Lemma Reachable_IPSet ipset ipp : Reachable ipset ipp → IPSet ipp = ipset.
Proof.
  induction 1 as [|fuel ipp nid d rd t ipp' logs r _ IH Happ|ipp nid0 a d t _ IH].
  - done.
  - revert Happ. unfold applyCheckoutAddr, allocate.
    destruct (perPeerMap ipp !! nid) as [ps|]; simpl.
    + destruct (domainToAddr ps !! d) as [e|].
      * destruct (addrToDomain ps !! e); [by intros [= <- _ _]|].
        destruct (unusedIPV4 _ _ _ _) as [[[[? []] ?] [?|]]|]; simpl;
          by intros [= <- _ _].
      * destruct (unusedIPV4 _ _ _ _) as [[[[? []] ?] [?|]]|]; simpl;
          by intros [= <- _ _].
    + rewrite lookup_empty.
      destruct (unusedIPV4 _ _ _ _) as [[[[? []] ?] [?|]]|]; simpl;
        by intros [= <- _ _].
  - unfold applyMarkLastUsed.
    destruct (perPeerMap ipp !! nid0) as [ps|]; [|done].
    destruct (addrToDomain ps !! a) as [ww|]; [|done].
    destruct (negb _); [done|]. by destruct (After _ _).
Qed.

Lemma poolAB_Reachable : Reachable poolXY poolAB.
Proof.
  eapply (reach_checkoutAddr poolXY 3%nat _ 1 "b.example" 0 100).
  - eapply (reach_checkoutAddr poolXY 3%nat _ 1 "a.example" 0 0).
    + apply reach_new.
    + vm_compute. reflexivity.
  - vm_compute. reflexivity.
Qed.

(** X1. No double allocation: in a pool state reached from the empty one,
    two distinct domains of one peer never map to the same address. *)
Theorem no_double_allocation ipset ipp nid ps d1 d2 a :
  Reachable ipset ipp →
  perPeerMap ipp !! nid = Some ps →
  domainToAddr ps !! d1 = Some a →
  domainToAddr ps !! d2 = Some a →
  d1 = d2.
Proof.
  intros Hr Hn H1 H2. apply Reachable_poolInv in Hr.
  destruct (Hr _ _ Hn) as [Hf _].
  destruct (Hf _ _ H1) as (ww1 & Hw1 & <-).
  destruct (Hf _ _ H2) as (ww2 & Hw2 & <-). congruence.
Qed.

Lemma no_double_allocation_witness : "a.example"%string = "a.example"%string.
Proof.
  apply (no_double_allocation poolXY poolAB 1 peerAB
           "a.example" "a.example" addrX).
  - apply poolAB_Reachable.
  - reflexivity.
  - reflexivity.
  - reflexivity.
Defined.

(** X2. In a pool state reached from the empty one, every recorded address
    is the one its domain maps to, so a peer never has two addresses
    recorded for one domain. *)
Theorem one_address_per_domain ipset ipp nid ps a1 a2 ww1 ww2 :
  Reachable ipset ipp →
  perPeerMap ipp !! nid = Some ps →
  addrToDomain ps !! a1 = Some ww1 →
  addrToDomain ps !! a2 = Some ww2 →
  Domain ww1 = Domain ww2 →
  domainToAddr ps !! Domain ww1 = Some a1 ∧ a1 = a2.
Proof.
  intros Hr Hn H1 H2 Heq. apply Reachable_poolInv in Hr.
  destruct (Hr _ _ Hn) as [_ Hb].
  pose proof (Hb _ _ H1) as Hd1. pose proof (Hb _ _ H2) as Hd2.
  split; [done|]. congruence.
Qed.

Lemma one_address_per_domain_witness :
  domainToAddr peerAB !! "b.example"%string = Some addrY ∧ addrY = addrY.
Proof.
  apply (one_address_per_domain poolXY poolAB 1 peerAB addrY addrY
           (mkWhereWhen "b.example" 100) (mkWhereWhen "b.example" 100)).
  - apply poolAB_Reachable.
  - reflexivity.
  - reflexivity.
  - reflexivity.
  - reflexivity.
Defined.

(** After a successful checkout in a state that satisfies the invariant,
    the domain maps to the returned address and the address is recorded
    for the domain with the time of the checkout. *)
Lemma applyCheckoutAddr_post fuel ipp nid d rd t ipp' logs a :
  poolInv ipp →
  applyCheckoutAddr fuel ipp nid d rd t = Some (ipp', logs, (a, None)) →
  ∃ ps', perPeerMap ipp' !! nid = Some ps'
         ∧ domainToAddr ps' !! d = Some a
         ∧ addrToDomain ps' !! a = Some (mkWhereWhen d t).
Proof.
  intros Hp. unfold applyCheckoutAddr.
  set (pp := match perPeerMap ipp !! nid with
             | Some ps => (ps, ipp)
             | None => (newPeerState, storePeer ipp nid newPeerState)
             end).
  assert (Hps : peerInv pp.1).
  { subst pp. destruct (perPeerMap ipp !! nid) as [ps|] eqn:Hn; simpl.
    - by eapply Hp.
    - apply peerInv_new. }
  destruct pp as [ps ipp1]. simpl in Hps. destruct Hps as [Hf Hb].
  assert (Hal : ∀ r, allocate fuel ipp1 nid ps d rd t = Some r →
                     domainToAddr ps !! d = None → r.2 = (a, None) →
                     ∃ ps', perPeerMap r.1 !! nid = Some ps'
                            ∧ domainToAddr ps' !! d = Some a
                            ∧ addrToDomain ps' !! a = Some (mkWhereWhen d t)).
  { intros r. unfold allocate, unusedIPV4.
    destruct (unusedIPV4_ranges _ _ _ _) as [[[[a' w] prev] [e|]]|] eqn:Hu;
      [by intros [= <-] _ [=]| |done].
    intros [= <-] Hd [= ->]. simpl.
    apply unusedIPV4_ranges_candidate in Hu.
    eexists. rewrite lookup_insert_eq. split; [done|]. simpl.
    rewrite lookup_insert_eq. split; [|done].
    destruct w; [|by rewrite lookup_insert_eq].
    destruct Hu as (ww & Hw & <- & _).
    rewrite lookup_delete_ne; [by rewrite lookup_insert_eq|].
    intros Heq. apply Hb in Hw. congruence. }
  destruct (domainToAddr ps !! d) as [existing|] eqn:Hd.
  - destruct (Hf _ _ Hd) as (ww & Hw & Hdom). rewrite Hw.
    intros [= <- _ <-]. eexists. simpl. rewrite lookup_insert_eq.
    split; [done|]. simpl. split; [done|].
    by rewrite lookup_insert_eq, Hdom.
  - destruct (allocate _ _ _ _ _ _ _) as [r|] eqn:Ha; [|done]. simpl.
    intros [= <- _ Hr]. by apply (Hal r).
Qed.

(** X3. In a pool state reached from the empty one, a checkout that
    succeeds leaves the domain mapped to the address it returns, and that
    address recorded for the domain with the time of the checkout. *)
Theorem checkout_records_assignment ipset fuel ipp nid d rd t ipp' logs a :
  Reachable ipset ipp →
  applyCheckoutAddr fuel ipp nid d rd t = Some (ipp', logs, (a, None)) →
  ∃ ps', perPeerMap ipp' !! nid = Some ps'
         ∧ domainToAddr ps' !! d = Some a
         ∧ addrToDomain ps' !! a = Some (mkWhereWhen d t).
Proof.
  intros Hr. apply applyCheckoutAddr_post. by eapply Reachable_poolInv.
Qed.

Lemma checkout_records_assignment_witness :
  ∃ ps', perPeerMap poolA !! 1 = Some ps'
         ∧ domainToAddr ps' !! "a.example"%string = Some addrX
         ∧ addrToDomain ps' !! addrX = Some (mkWhereWhen "a.example" 100).
Proof.
  apply (checkout_records_assignment poolXY 2 (NewConsensusIPPool poolXY)
           1 "a.example" 0 100 poolA [] addrX).
  - apply reach_new.
  - vm_compute. reflexivity.
Defined.

(** X4. Assignments are stable: once a checkout has succeeded in a
    reachable state, any later checkout of the same domain by the same
    peer, directly after it, returns the same address, whatever its reuse
    deadline and time and without any scan, and stamps it with the new
    time. *)
Theorem checkout_is_stable ipset fuel ipp nid d rd t ipp' logs a
    (fuel' : nat) (rd' t' : Instant) :
  Reachable ipset ipp →
  applyCheckoutAddr fuel ipp nid d rd t = Some (ipp', logs, (a, None)) →
  ∃ ipp'' ps'',
    applyCheckoutAddr fuel' ipp' nid d rd' t' = Some (ipp'', [], (a, None))
    ∧ perPeerMap ipp'' !! nid = Some ps''
    ∧ addrToDomain ps'' !! a = Some (mkWhereWhen d t').
Proof.
  intros Hr Happ.
  destruct (applyCheckoutAddr_post _ _ _ _ _ _ _ _ _
              (Reachable_poolInv _ _ Hr) Happ) as (ps' & Hn & Hd & Ha).
  unfold applyCheckoutAddr. rewrite Hn, Hd, Ha. simpl.
  eexists _, _. split; [done|]. simpl. rewrite lookup_insert_eq.
  split; [done|]. simpl. by rewrite lookup_insert_eq.
Qed.

Lemma checkout_is_stable_witness :
  ∃ ipp'' ps'',
    applyCheckoutAddr 0 poolA 1 "a.example" 500 600
      = Some (ipp'', [], (addrX, None))
    ∧ perPeerMap ipp'' !! 1 = Some ps''
    ∧ addrToDomain ps'' !! addrX = Some (mkWhereWhen "a.example" 600).
Proof.
  apply (checkout_is_stable poolXY 2 (NewConsensusIPPool poolXY)
           1 "a.example" 0 100 poolA [] addrX 0 500 600).
  - apply reach_new.
  - vm_compute. reflexivity.
Defined.

Lemma unusedIPV4_ranges_error fuel a2d ranges rd a w prev e :
  unusedIPV4_ranges fuel a2d ranges rd = Some (a, w, prev, Some e) →
  a = netip.zero ∧ w = false ∧ prev = EmptyString ∧ e = errExhausted.
Proof.
  induction ranges as [|r rest IH]; simpl.
  - by intros [= <- <- <- <-].
  - destruct (negb _ || negb _); [done|].
    by destruct (scanRange _ _ _ _ _) as [[[[? ?] ?]|]|].
Qed.

(** The peer state a checkout works on, and what it makes of it. *)
Lemma applyCheckoutAddr_peer fuel ipp nid d rd t ipp' logs r :
  applyCheckoutAddr fuel ipp nid d rd t = Some (ipp', logs, r) →
  IPSet ipp' = IPSet ipp
  ∧ (∀ nid', nid' ≠ nid → perPeerMap ipp' !! nid' = perPeerMap ipp !! nid')
  ∧ ∃ ps', perPeerMap ipp' !! nid = Some ps'
           ∧ ∀ a, is_Some (addrToDomain (peerOf ipp nid) !! a) →
                  is_Some (addrToDomain ps' !! a).
Proof.
  unfold applyCheckoutAddr, peerOf.
  assert (Hal : ∀ ipp1 ps q,
    IPSet ipp1 = IPSet ipp →
    (∀ nid', nid' ≠ nid → perPeerMap ipp1 !! nid' = perPeerMap ipp !! nid') →
    perPeerMap ipp1 !! nid = Some ps →
    allocate fuel ipp1 nid ps d rd t = Some q →
    IPSet q.1 = IPSet ipp
    ∧ (∀ nid', nid' ≠ nid → perPeerMap q.1 !! nid' = perPeerMap ipp !! nid')
    ∧ ∃ ps', perPeerMap q.1 !! nid = Some ps'
             ∧ ∀ a, is_Some (addrToDomain ps !! a) →
                    is_Some (addrToDomain ps' !! a)).
  { intros ipp1 ps q Hset Hothers Hps. unfold allocate.
    destruct (unusedIPV4 _ _ _ _) as [[[[a w] prev] [e|]]|]; [| |done].
    - intros [= <-]. simpl. split_and!; [done..|]. by exists ps.
    - intros [= <-]. simpl. split_and!; [done| |].
      + intros nid' Hne. rewrite lookup_insert_ne by done. by apply Hothers.
      + eexists. rewrite lookup_insert_eq. split; [done|]. simpl.
        intros a' Ha'. rewrite lookup_insert. by case_decide. }
  destruct (perPeerMap ipp !! nid) as [ps|] eqn:Hn; simpl.
  - destruct (domainToAddr ps !! d) as [existing|].
    + destruct (addrToDomain ps !! existing) as [ww|] eqn:He.
      * intros [= <- _ _]. simpl. split_and!; [done| |].
        -- intros nid' Hne. by rewrite lookup_insert_ne.
        -- eexists. rewrite lookup_insert_eq. split; [done|]. simpl.
           intros a' Ha'. rewrite lookup_insert. by case_decide.
      * destruct (allocate _ _ _ _ _ _ _) as [q|] eqn:Ha; [|done]. simpl.
        intros [= <- _ _]. by apply (Hal ipp ps q).
    + destruct (allocate _ _ _ _ _ _ _) as [q|] eqn:Ha; [|done]. simpl.
      intros [= <- _ _]. by apply (Hal ipp ps q).
  - rewrite lookup_empty.
    destruct (allocate _ _ _ _ _ _ _) as [q|] eqn:Ha; [|done]. simpl.
    intros [= <- _ _].
    apply (Hal (storePeer ipp nid newPeerState) newPeerState q); try done.
    + intros nid' Hne. simpl. by rewrite lookup_insert_ne.
    + simpl. by rewrite lookup_insert_eq.
Qed.

(** X5. A checkout by one peer, whether it succeeds or fails, leaves the
    Address Set and the state of every other peer as they were. *)
Theorem checkout_touches_one_peer fuel ipp nid d rd t ipp' logs r nid' :
  applyCheckoutAddr fuel ipp nid d rd t = Some (ipp', logs, r) →
  nid' ≠ nid →
  IPSet ipp' = IPSet ipp ∧ perPeerMap ipp' !! nid' = perPeerMap ipp !! nid'.
Proof.
  intros Happ Hne.
  destruct (applyCheckoutAddr_peer _ _ _ _ _ _ _ _ _ Happ) as (Hs & Ho & _).
  split; [done|]. by apply Ho.
Qed.

(** X6. Nothing is ever forgotten by a checkout: the peer has a state
    afterwards, and every address that was recorded for it is still
    recorded (possibly for another domain). *)
Theorem checkout_keeps_entries fuel ipp nid d rd t ipp' logs r :
  applyCheckoutAddr fuel ipp nid d rd t = Some (ipp', logs, r) →
  ∃ ps', perPeerMap ipp' !! nid = Some ps'
         ∧ ∀ ps a, perPeerMap ipp !! nid = Some ps →
                   is_Some (addrToDomain ps !! a) →
                   is_Some (addrToDomain ps' !! a).
Proof.
  intros Happ.
  destruct (applyCheckoutAddr_peer _ _ _ _ _ _ _ _ _ Happ)
    as (_ & _ & ps' & Hn & Hkeep).
  exists ps'. split; [done|]. intros ps a Hps Ha. apply Hkeep.
  unfold peerOf. by rewrite Hps.
Qed.

(** X7. For a peer that already has a state, a checkout that fails returns
    the zero address with the exhaustion error and leaves the pool state
    exactly as it was. *)
Theorem failed_checkout_of_known_peer fuel ipp nid ps d rd t ipp' logs a err :
  perPeerMap ipp !! nid = Some ps →
  applyCheckoutAddr fuel ipp nid d rd t = Some (ipp', logs, (a, Some err)) →
  ipp' = ipp ∧ a = netip.zero ∧ err = errExhausted.
Proof.
  intros Hn. unfold applyCheckoutAddr. rewrite Hn.
  assert (Hal : ∀ q, allocate fuel ipp nid ps d rd t = Some q →
                     q.2 = (a, Some err) →
                     q.1 = ipp ∧ a = netip.zero ∧ err = errExhausted).
  { intros q. unfold allocate, unusedIPV4.
    destruct (unusedIPV4_ranges _ _ _ _) as [[[[a' w] prev] [e|]]|] eqn:Hu;
      [|by intros [= <-] [=]|done].
    intros [= <-] [= <- <-]. simpl.
    by destruct (unusedIPV4_ranges_error _ _ _ _ _ _ _ _ Hu) as (_ & _ & _ & ->). }
  destruct (domainToAddr ps !! d) as [existing|].
  - destruct (addrToDomain ps !! existing) as [ww|]; [done|].
    destruct (allocate _ _ _ _ _ _ _) as [q|] eqn:Ha; [|done]. simpl.
    intros [= <- _ Hq]. by apply Hal.
  - destruct (allocate _ _ _ _ _ _ _) as [q|] eqn:Ha; [|done]. simpl.
    intros [= <- _ Hq]. by apply Hal.
Qed.

(** X8. Peers do not compete: the address a checkout returns, its error
    and the state it leaves for the peer depend on the Address Set and on
    that peer's own state only, not on what other peers hold. *)
Theorem checkout_ignores_other_peers fuel ipp1 ipp2 nid d rd t :
  IPSet ipp1 = IPSet ipp2 →
  perPeerMap ipp1 !! nid = perPeerMap ipp2 !! nid →
  (λ r, (perPeerMap r.1.1 !! nid, r.1.2, r.2))
    <$> applyCheckoutAddr fuel ipp1 nid d rd t
  = (λ r, (perPeerMap r.1.1 !! nid, r.1.2, r.2))
    <$> applyCheckoutAddr fuel ipp2 nid d rd t.
Proof.
  intros Hset Hpeer. unfold applyCheckoutAddr. rewrite <- Hpeer.
  assert (Hal : ∀ q1 q2 ps,
    IPSet q1 = IPSet q2 →
    perPeerMap q1 !! nid = Some ps → perPeerMap q2 !! nid = Some ps →
    (λ r, (perPeerMap r.1 !! nid, r.2)) <$> allocate fuel q1 nid ps d rd t
    = (λ r, (perPeerMap r.1 !! nid, r.2)) <$> allocate fuel q2 nid ps d rd t).
  { intros q1 q2 ps Hq H1 H2. unfold allocate. rewrite Hq.
    destruct (unusedIPV4 _ _ _ _) as [[[[a w] prev] [e|]]|]; simpl; [|by rewrite !lookup_insert_eq|done].
    by rewrite H1, H2. }
  destruct (perPeerMap ipp1 !! nid) as [ps|] eqn:Hn; simpl.
  - destruct (domainToAddr ps !! d) as [existing|].
    + destruct (addrToDomain ps !! existing) as [ww|].
      * simpl. by rewrite !lookup_insert_eq.
      * specialize (Hal ipp1 ipp2 ps Hset Hn (eq_sym Hpeer)).
        destruct (allocate fuel ipp1 _ _ _ _ _) as [q1|],
                 (allocate fuel ipp2 _ _ _ _ _) as [q2|]; simpl in *;
          congruence.
      + specialize (Hal ipp1 ipp2 ps Hset Hn (eq_sym Hpeer)).
        destruct (allocate fuel ipp1 _ _ _ _ _) as [q1|],
                 (allocate fuel ipp2 _ _ _ _ _) as [q2|]; simpl in *;
          congruence.
  - rewrite lookup_empty.
    specialize (Hal (storePeer ipp1 nid newPeerState)
                    (storePeer ipp2 nid newPeerState) newPeerState Hset).
    simpl in Hal. rewrite !lookup_insert_eq in Hal.
    specialize (Hal eq_refl eq_refl).
    destruct (allocate fuel (storePeer ipp1 _ _) _ _ _ _ _) as [q1|],
             (allocate fuel (storePeer ipp2 _ _) _ _ _ _ _) as [q2|];
      simpl in *; congruence.
Qed.

Lemma checkout_touches_one_peer_witness :
  IPSet poolAZ = IPSet poolA
  ∧ perPeerMap poolAZ !! 1 = perPeerMap poolA !! 1.
Proof.
  apply (checkout_touches_one_peer 2 poolA 2 "z.example" 0 100 poolAZ []
           (addrX, None) 1).
  - vm_compute. reflexivity.
  - discriminate.
Defined.

Lemma checkout_keeps_entries_witness :
  ∃ ps', perPeerMap poolAB !! 1 = Some ps'
         ∧ ∀ ps a, perPeerMap (storePeer (NewConsensusIPPool poolXY) 1
                                 (mkPeerState
                                    {[ "a.example"%string := addrX ]}
                                    {[ addrX := mkWhereWhen "a.example" 0 ]}))
                     !! 1 = Some ps →
                   is_Some (addrToDomain ps !! a) →
                   is_Some (addrToDomain ps' !! a).
Proof.
  apply (checkout_keeps_entries 3 _ 1 "b.example" 0 100 poolAB []
           (addrY, None)).
  vm_compute. reflexivity.
Defined.

Lemma failed_checkout_of_known_peer_witness :
  poolAB = poolAB ∧ netip.zero = netip.zero ∧ errExhausted = errExhausted.
Proof.
  apply (failed_checkout_of_known_peer 3 poolAB 1 peerAB "c.example" 0 120
           poolAB [] netip.zero errExhausted).
  - reflexivity.
  - vm_compute. reflexivity.
Defined.

Lemma checkout_ignores_other_peers_witness :
  (λ r, (perPeerMap r.1.1 !! 1, r.1.2, r.2))
    <$> applyCheckoutAddr 3 poolA 1 "b.example" 0 100
  = (λ r, (perPeerMap r.1.1 !! 1, r.1.2, r.2))
    <$> applyCheckoutAddr 3 poolAZ 1 "b.example" 0 100.
Proof.
  apply (checkout_ignores_other_peers 3 poolA poolAZ 1 "b.example" 0 100).
  - reflexivity.
  - reflexivity.
Defined.

(** * Further properties of marking *)

Lemma alter_as_insert `{Countable K} {A} (f : A → A) (m : gmap K A) i x :
  m !! i = Some x → alter f i m = <[i := f x]> m.
Proof.
  intros Hi. apply map_eq. intros j.
  rewrite lookup_alter, lookup_insert. case_decide; [|done].
  by rewrite Hi.
Qed.

Lemma markedEntry_noop domain t ww :
  Domain ww ≠ domain ∨ t ≤ LastUsed ww → markedEntry domain t ww = ww.
Proof.
  unfold markedEntry. destruct (String.eqb_spec (Domain ww) domain); [|done].
  intros [?|Hle]; [done|]. rewrite Z.max_l by done. by destruct ww.
Qed.

(** A mark is an in-place update of one entry of one peer. *)
Lemma applyMarkLastUsed_alter ipp from addr domain t :
  (applyMarkLastUsed ipp from addr domain t).1.1
  = mkPool (IPSet ipp)
           (alter (markedPeer addr domain t) from (perPeerMap ipp)).
Proof.
  unfold applyMarkLastUsed. destruct ipp as [set m]. simpl.
  destruct (m !! from) as [ps|] eqn:Hn; [|by rewrite alter_id'].
  assert (Hid : ∀ ww, addrToDomain ps !! addr = Some ww →
                      markedEntry domain t ww = ww →
                      alter (markedPeer addr domain t) from m = m).
  { intros ww Ha Hm. apply alter_id. intros ps0 Hps0.
    assert (ps0 = ps) as -> by congruence. unfold markedPeer.
    rewrite alter_id; [by destruct ps|]. intros ww0 Hww0. congruence. }
  destruct (addrToDomain ps !! addr) as [ww|] eqn:Ha; simpl.
  - destruct (String.eqb_spec (Domain ww) domain) as [Heq|Hne]; simpl.
    + unfold After. destruct (Z.ltb_spec t (LastUsed ww)); simpl.
      * rewrite (Hid ww); [done..|]. apply markedEntry_noop. right. lia.
      * unfold storePeer. simpl. f_equal.
        rewrite (alter_as_insert _ _ _ ps) by done. f_equal.
        unfold markedPeer. f_equal.
        rewrite (alter_as_insert _ _ _ ww) by done. f_equal.
        unfold markedEntry. destruct (String.eqb_spec (Domain ww) domain);
          [|done]. f_equal. lia.
    + rewrite (Hid ww); [done..|]. apply markedEntry_noop. by left.
  - rewrite alter_id; [done|]. intros ps0 Hps0.
    assert (ps0 = ps) as -> by congruence. unfold markedPeer.
    rewrite alter_id' by done. by destruct ps.
Qed.

(** X9. A mark of an address recorded for the given domain moves its
    lastUsed to the later of the stored instant and [updatedAt], and changes
    nothing else in the peer's state: the forward map and every other
    address stay as they were. *)
Theorem mark_takes_the_later_instant ipp from addr domain t ps ww :
  perPeerMap ipp !! from = Some ps →
  addrToDomain ps !! addr = Some ww →
  Domain ww = domain →
  ∃ ps', perPeerMap (applyMarkLastUsed ipp from addr domain t).1.1 !! from
           = Some ps'
         ∧ addrToDomain ps' !! addr
           = Some (mkWhereWhen domain (Z.max (LastUsed ww) t))
         ∧ domainToAddr ps' = domainToAddr ps
         ∧ ∀ a, a ≠ addr → addrToDomain ps' !! a = addrToDomain ps !! a.
Proof.
  intros Hn Ha Hd. rewrite applyMarkLastUsed_alter. simpl.
  rewrite lookup_alter_eq, Hn. simpl. eexists. split; [done|]. simpl.
  split_and!.
  - rewrite lookup_alter_eq, Ha. simpl. unfold markedEntry.
    rewrite Hd. by rewrite String.eqb_refl.
  - done.
  - intros a Hne. by rewrite lookup_alter_ne.
Qed.

Lemma mark_takes_the_later_instant_witness :
  ∃ ps', perPeerMap (applyMarkLastUsed poolAB 1 addrY "b.example" 40).1.1 !! 1
           = Some ps'
         ∧ addrToDomain ps' !! addrY
           = Some (mkWhereWhen "b.example" (Z.max 100 40))
         ∧ domainToAddr ps' = domainToAddr peerAB
         ∧ ∀ a, a ≠ addrY → addrToDomain ps' !! a = addrToDomain peerAB !! a.
Proof.
  apply (mark_takes_the_later_instant poolAB 1 addrY "b.example" 40 peerAB
           (mkWhereWhen "b.example" 100)).
  - reflexivity.
  - reflexivity.
  - reflexivity.
Defined.

(** X10. A mark never creates or deletes anything: every peer keeps its
    forward map, every recorded address stays recorded for the same domain
    with a lastUsed that did not move back, and no address gets recorded. *)
Theorem mark_keeps_entries ipp from addr domain t nid ps :
  perPeerMap ipp !! nid = Some ps →
  ∃ ps', perPeerMap (applyMarkLastUsed ipp from addr domain t).1.1 !! nid
           = Some ps'
         ∧ domainToAddr ps' = domainToAddr ps
         ∧ (∀ a, addrToDomain ps !! a = None → addrToDomain ps' !! a = None)
         ∧ ∀ a ww, addrToDomain ps !! a = Some ww →
             ∃ ww', addrToDomain ps' !! a = Some ww'
                    ∧ Domain ww' = Domain ww
                    ∧ LastUsed ww ≤ LastUsed ww'.
Proof.
  intros Hn. rewrite applyMarkLastUsed_alter. simpl.
  rewrite lookup_alter. case_decide as Hf.
  2:{ exists ps. split_and!; [done..|]. intros a ww Ha. exists ww.
      split_and!; (done || lia). }
  subst nid. rewrite Hn. simpl. eexists. split; [done|]. simpl.
  split_and!; [done| |].
  - intros a Ha. rewrite lookup_alter. case_decide; [by subst; rewrite Ha|done].
  - intros a ww Ha. rewrite lookup_alter. case_decide as Haa.
    + subst a. rewrite Ha. simpl. eexists. split; [done|].
      unfold markedEntry. destruct (String.eqb _ _); simpl; split; (done || lia).
    + exists ww. split_and!; (done || lia).
Qed.

Lemma mark_keeps_entries_witness :
  ∃ ps', perPeerMap (applyMarkLastUsed poolAB 1 addrY "b.example" 400).1.1 !! 1
           = Some ps'
         ∧ domainToAddr ps' = domainToAddr peerAB
         ∧ (∀ a, addrToDomain peerAB !! a = None → addrToDomain ps' !! a = None)
         ∧ ∀ a ww, addrToDomain peerAB !! a = Some ww →
             ∃ ww', addrToDomain ps' !! a = Some ww'
                    ∧ Domain ww' = Domain ww
                    ∧ LastUsed ww ≤ LastUsed ww'.
Proof.
  apply (mark_keeps_entries poolAB 1 addrY "b.example" 400 1 peerAB).
  reflexivity.
Defined.

Lemma markedEntry_comm d1 t1 d2 t2 ww :
  markedEntry d2 t2 (markedEntry d1 t1 ww)
  = markedEntry d1 t1 (markedEntry d2 t2 ww).
Proof.
  unfold markedEntry.
  destruct (String.eqb (Domain ww) d1) eqn:H1,
           (String.eqb (Domain ww) d2) eqn:H2; simpl;
    rewrite ?H1, ?H2; try done.
  f_equal. lia.
Qed.

Lemma markedPeer_comm a1 d1 t1 a2 d2 t2 ps :
  markedPeer a2 d2 t2 (markedPeer a1 d1 t1 ps)
  = markedPeer a1 d1 t1 (markedPeer a2 d2 t2 ps).
Proof.
  unfold markedPeer. simpl. f_equal.
  destruct (decide (a2 = a1)) as [->|Hne].
  - rewrite !alter_alter_eq. apply alter_ext. intros ww _. simpl.
    apply markedEntry_comm.
  - by apply alter_alter_ne.
Qed.

(** X11. Marks commute: two marks, for any peers, addresses, domains and
    instants, leave the same pool state whichever is applied first, so
    out-of-order delivery of usage refreshes does not matter. *)
Theorem marks_commute ipp f1 a1 d1 t1 f2 a2 d2 t2 :
  (applyMarkLastUsed (applyMarkLastUsed ipp f1 a1 d1 t1).1.1 f2 a2 d2 t2).1.1
  = (applyMarkLastUsed (applyMarkLastUsed ipp f2 a2 d2 t2).1.1 f1 a1 d1 t1).1.1.
Proof.
  rewrite !applyMarkLastUsed_alter. simpl. f_equal.
  destruct (decide (f2 = f1)) as [->|Hne].
  - rewrite !alter_alter_eq. apply alter_ext. intros ps _. simpl.
    apply markedPeer_comm.
  - by apply alter_alter_ne.
Qed.

(** * Further properties of the scan *)

Lemma poolXY_range_regular : regular (mkRange addrX addrY).
Proof.
  split_and!; try (by apply wfAddr_AddrFrom4); by vm_compute.
Qed.

Lemma poolXY_range_addrX : inRange (mkRange addrX addrY) addrX.
Proof. split_and!; [by apply wfAddr_AddrFrom4|done|by vm_compute..]. Qed.

(** X12. First fit: when the ranges before [r] hold no candidate and [X] is
    the first address of [r] that is unrecorded or expired, the scan returns
    [X] with the domain it was recorded for, whatever lies behind it, be it
    staler or free. *)
Theorem scan_returns_first_candidate ps rd pre r post X w prev :
  Forall (passedOver (addrToDomain ps) rd) pre →
  regular r →
  inRange r X →
  (∀ a, inRange r a → val a < val X → held (addrToDomain ps) rd a) →
  candidateOf (addrToDomain ps) rd X w prev →
  ∃ fuel0, ∀ fuel, (fuel0 ≤ fuel)%nat →
    unusedIPV4 fuel ps (pre ++ r :: post) rd = Some (X, w, prev, None).
Proof. intros. unfold unusedIPV4. by apply unusedIPV4_first_fit. Qed.

Lemma scan_returns_first_candidate_witness :
  ∃ fuel0, ∀ fuel, (fuel0 ≤ fuel)%nat →
    unusedIPV4 fuel peerBA ([] ++ mkRange addrX addrY :: []) 200
      = Some (addrX, true, "a.example"%string, None).
Proof.
  apply (scan_returns_first_candidate peerBA 200 [] (mkRange addrX addrY) []
           addrX true "a.example").
  - constructor.
  - apply poolXY_range_regular.
  - apply poolXY_range_addrX.
  - intros a (_ & _ & Hv) Hlt. simpl in Hv. lia.
  - exists (mkWhereWhen "a.example" 100). split_and!; [reflexivity..|simpl; lia].
Defined.

(** X13. Exhaustion: when every range of the Address Set is walked through
    without a candidate, the scan reports the exhaustion error, and a
    checkout of a domain that holds no address fails with it. *)
Theorem scan_reports_exhaustion ipp nid ps d rd t :
  perPeerMap ipp !! nid = Some ps →
  Forall (passedOver (addrToDomain ps) rd) (IPSet ipp) →
  domainToAddr ps !! d = None →
  ∃ fuel0, ∀ fuel, (fuel0 ≤ fuel)%nat →
    unusedIPV4 fuel ps (IPSet ipp) rd
      = Some (netip.zero, false, EmptyString, Some errExhausted)
    ∧ applyCheckoutAddr fuel ipp nid d rd t
      = Some (ipp, [], (netip.zero, Some errExhausted)).
Proof.
  intros Hn Hpass Hd.
  destruct (unusedIPV4_exhausted _ _ _ Hpass) as [fuel0 Hex].
  exists fuel0. intros fuel Hfuel. specialize (Hex fuel Hfuel).
  split; [done|]. unfold applyCheckoutAddr, allocate, unusedIPV4.
  by rewrite Hn, Hd, Hex.
Qed.

Lemma poolAB_passedOver : Forall (passedOver (addrToDomain peerAB) 0) poolXY.
Proof.
  constructor; [|constructor].
  split; [apply poolXY_range_regular|]. split; [by vm_compute|].
  intros a Ha.
  assert (Hin : inPool poolXY a).
  { exists (mkRange addrX addrY). split; [apply list_elem_of_here|done]. }
  destruct (decide (a = addrX)) as [->|Hne].
  - exists (mkWhereWhen "a.example" 0). split; [reflexivity|simpl; lia].
  - rewrite (poolXY_others a Hin Hne).
    exists (mkWhereWhen "b.example" 100). split; [reflexivity|simpl; lia].
Qed.

Lemma scan_reports_exhaustion_witness :
  ∃ fuel0, ∀ fuel, (fuel0 ≤ fuel)%nat →
    unusedIPV4 fuel peerAB (IPSet poolAB) 0
      = Some (netip.zero, false, EmptyString, Some errExhausted)
    ∧ applyCheckoutAddr fuel poolAB 1 "c.example" 0 120
      = Some (poolAB, [], (netip.zero, Some errExhausted)).
Proof.
  apply (scan_reports_exhaustion poolAB 1 peerAB "c.example" 0 120).
  - reflexivity.
  - apply poolAB_passedOver.
  - reflexivity.
Defined.

(** X14. What the scan returns without error is a candidate: never an
    address that is recorded and not expired; [wasInUse] tells whether it
    is recorded, and [previousDomain] is then the domain it is recorded
    for, otherwise the empty string. *)
Theorem scan_returns_a_candidate fuel ps ranges rd a w prev :
  unusedIPV4 fuel ps ranges rd = Some (a, w, prev, None) →
  ¬ held (addrToDomain ps) rd a
  ∧ (w = true →
     ∃ ww, addrToDomain ps !! a = Some ww ∧ Domain ww = prev
           ∧ LastUsed ww < rd)
  ∧ (w = false → addrToDomain ps !! a = None ∧ prev = EmptyString).
Proof.
  unfold unusedIPV4. intros Hc%unusedIPV4_ranges_candidate.
  unfold candidateOf in Hc. destruct w.
  - destruct Hc as (ww & Ha & Hd & Hlt). split_and!; [|by eauto|done].
    intros (ww' & Ha' & Hge). assert (ww' = ww) as -> by congruence. lia.
  - destruct Hc as [Ha ->]. split_and!; [|done|done].
    intros (ww' & Ha' & _). congruence.
Qed.

Lemma scan_returns_a_candidate_witness :
  ¬ held (addrToDomain peerBA) 50 addrY
  ∧ (true = true →
     ∃ ww, addrToDomain peerBA !! addrY = Some ww
           ∧ Domain ww = "b.example"%string ∧ LastUsed ww < 50)
  ∧ (true = false →
     addrToDomain peerBA !! addrY = None ∧ "b.example"%string = EmptyString).
Proof.
  apply (scan_returns_a_candidate 3 peerBA poolXY 50 addrY true "b.example").
  vm_compute. reflexivity.
Defined.

(** The address the inner loop returns lies in the range, as long as the
    range does not end at the last address of its family. *)
Lemma scanRange_inRange a2d rd r a w prev fuel :
  ∀ ip,
    wfAddr ip → wfAddr (To r) → netip.z ip = netip.z (To r) →
    ¬ endsFamily r → val (From r) ≤ val ip →
    scanRange fuel a2d rd ip (To r) = Some (Some (a, w, prev)) →
    inRange r a.
Proof.
  induction fuel as [|fuel IH]; intros ip Hip Hto Hz Hend Hfrom; simpl;
    [done|].
  case_decide as Hcmp; [done|].
  assert (Hle : val ip ≤ val (To r)).
  { destruct (decide (val (To r) < val ip)) as [Hlt|]; [|lia].
    exfalso. apply Hcmp. by apply Compare_lt. }
  assert (Hhere : inRange r ip) by (split_and!; (done || lia)).
  destruct (a2d !! ip) as [ww|]; [|by intros [= <- _ _]].
  destruct (Before _ _); [by intros [= <- _ _]|].
  pose proof (wfAddr_bounds _ Hto) as (_ & _ & Hmax).
  unfold endsFamily in Hend.
  destruct (Next_succ ip) as (Hn1 & Hn2 & Hn3); [done|rewrite Hz; lia|].
  apply IH; try done; try congruence; lia.
Qed.

Lemma unusedIPV4_ranges_inPool fuel a2d ranges rd a w prev :
  Forall regular ranges →
  Forall (λ r, ¬ endsFamily r) ranges →
  unusedIPV4_ranges fuel a2d ranges rd = Some (a, w, prev, None) →
  inPool ranges a.
Proof.
  induction ranges as [|r rest IH]; intros Hreg Hnw; simpl; [done|].
  apply Forall_cons in Hreg as [(Hf & Ht & Hz & Hle) Hreg].
  apply Forall_cons in Hnw as [Hw Hnw].
  assert (Hrest : inPool rest a → inPool (r :: rest) a).
  { intros (r' & Hr' & Ha). exists r'.
    split; [by apply list_elem_of_further|done]. }
  destruct (negb _ || negb _); [by intros ?%IH; auto|].
  destruct (scanRange _ _ _ _ _) as [[[[a' w'] p']|]|] eqn:Hs;
    [|by intros ?%IH; auto|done].
  intros [= <- <- <-]. exists r. split; [apply list_elem_of_here|].
  apply (scanRange_inRange a2d rd r a' w' p' fuel (From r)); (done || lia).
Qed.

(** X15. For an Address Set of well-formed ranges none of which ends at the
    last address of its family, the scan only ever returns addresses of the
    set. *)
Theorem scan_stays_in_the_set fuel ps ranges rd a w prev :
  Forall regular ranges →
  Forall (λ r, ¬ endsFamily r) ranges →
  unusedIPV4 fuel ps ranges rd = Some (a, w, prev, None) →
  inPool ranges a.
Proof. unfold unusedIPV4. apply unusedIPV4_ranges_inPool. Qed.

Lemma scan_stays_in_the_set_witness : inPool poolXY addrX.
Proof.
  apply (scan_stays_in_the_set 3 peerAB poolXY 50 addrX true "a.example").
  - apply poolXY_regular.
  - apply poolXY_no_wrap.
  - vm_compute. reflexivity.
Defined.

(** Where a recorded address comes from: it was recorded before the
    checkout, or it is the address the scan of this checkout returned. *)
Lemma applyCheckoutAddr_new_entry fuel ipp nid d rd t ipp' logs r n ps' a :
  applyCheckoutAddr fuel ipp nid d rd t = Some (ipp', logs, r) →
  perPeerMap ipp' !! n = Some ps' →
  is_Some (addrToDomain ps' !! a) →
  (∃ ps, perPeerMap ipp !! n = Some ps ∧ is_Some (addrToDomain ps !! a))
  ∨ (∃ w prev, unusedIPV4 fuel (peerOf ipp nid) (IPSet ipp) rd
               = Some (a, w, prev, None)).
Proof.
  unfold applyCheckoutAddr, peerOf.
  assert (Hal : ∀ ipp1 ps q,
    IPSet ipp1 = IPSet ipp →
    allocate fuel ipp1 nid ps d rd t = Some q →
    perPeerMap q.1 !! n = Some ps' →
    is_Some (addrToDomain ps' !! a) →
    (n ≠ nid ∧ perPeerMap ipp1 !! n = Some ps')
    ∨ (n = nid ∧ perPeerMap ipp1 !! n = Some ps' ∧ q.1 = ipp1)
    ∨ (n = nid ∧ is_Some (addrToDomain ps !! a))
    ∨ (∃ w prev, unusedIPV4 fuel ps (IPSet ipp) rd = Some (a, w, prev, None))).
  { intros ipp1 ps q Hset. unfold allocate. rewrite Hset.
    destruct (unusedIPV4 _ _ _ _) as [[[[a' w] prev] [e|]]|] eqn:Hu; [| |done].
    - intros [= <-]. simpl. intros Hn _.
      destruct (decide (n = nid)); [right; left|left]; done.
    - intros [= <-]. simpl. rewrite lookup_insert. case_decide as Hnn.
      + intros [= <-]. simpl. rewrite lookup_insert. case_decide as Haa.
        * subst a'. intros _. right; right; right. eauto.
        * intros Ha. right; right; left. by subst.
      + intros Hn _. left. split; [congruence|done]. }
  destruct (perPeerMap ipp !! nid) as [ps|] eqn:Hn; simpl.
  - assert (Hfin : ∀ q, allocate fuel ipp nid ps d rd t = Some q →
      perPeerMap q.1 !! n = Some ps' → is_Some (addrToDomain ps' !! a) →
      (∃ ps0, perPeerMap ipp !! n = Some ps0 ∧ is_Some (addrToDomain ps0 !! a))
      ∨ (∃ w prev, unusedIPV4 fuel ps (IPSet ipp) rd = Some (a, w, prev, None))).
    { intros q Hq Hn' Ha'.
      destruct (Hal ipp ps q eq_refl Hq Hn' Ha')
        as [[? ?]|[(? & ? & ?)|[[-> ?]|?]]]; eauto. }
    destruct (domainToAddr ps !! d) as [existing|].
    + destruct (addrToDomain ps !! existing) as [ww|] eqn:He.
      * intros [= <- _ _]. simpl. rewrite lookup_insert. case_decide as Hnn.
        -- subst n. intros [= <-]. simpl. rewrite lookup_insert.
           case_decide as Haa; [subst a|]; intros Ha; left; eauto.
        -- intros Hn' Ha'. left. eauto.
      * destruct (allocate _ _ _ _ _ _ _) as [q|] eqn:Ha; [|done]. simpl.
        intros [= <- _ _]. by apply Hfin.
    + destruct (allocate _ _ _ _ _ _ _) as [q|] eqn:Ha; [|done]. simpl.
      intros [= <- _ _]. by apply Hfin.
  - rewrite lookup_empty.
    destruct (allocate _ _ _ _ _ _ _) as [q|] eqn:Ha; [|done]. simpl.
    intros [= <- _ _] Hn' Ha'.
    destruct (Hal (storePeer ipp nid newPeerState) newPeerState q
                  eq_refl Ha Hn' Ha')
      as [[Hne Hl]|[(-> & Hl & _)|[[_ Hl]|?]]]; [| | |by right].
    + simpl in Hl. rewrite lookup_insert_ne in Hl by done. left. eauto.
    + simpl in Hl. rewrite lookup_insert_eq in Hl. injection Hl as <-.
      simpl in Ha'. rewrite lookup_empty in Ha'. by destruct Ha'.
    + simpl in Hl. rewrite lookup_empty in Hl. by destruct Hl.
Qed.

Lemma Reachable_records_in_pool ipset ipp :
  Forall regular ipset →
  Forall (λ r, ¬ endsFamily r) ipset →
  Reachable ipset ipp →
  ∀ n ps a, perPeerMap ipp !! n = Some ps →
            is_Some (addrToDomain ps !! a) → inPool ipset a.
Proof.
  intros Hreg Hnw.
  induction 1 as [|fuel ipp nid d rd t ipp' logs r Hr IH Happ
                  |ipp nid0 a0 d t Hr IH]; intros n ps a Hn Ha.
  - simpl in Hn. by rewrite lookup_empty in Hn.
  - destruct (applyCheckoutAddr_new_entry _ _ _ _ _ _ _ _ _ _ _ _ Happ Hn Ha)
      as [(ps0 & Hn0 & Ha0)|(w & prev & Hscan)]; [by eapply IH|].
    rewrite (Reachable_IPSet _ _ Hr) in Hscan.
    by eapply unusedIPV4_ranges_inPool.
  - rewrite applyMarkLastUsed_alter in Hn. simpl in Hn.
    rewrite lookup_alter in Hn. case_decide as Hnn; [|by eapply IH].
    subst n. destruct (perPeerMap ipp !! nid0) as [ps0|] eqn:Hn0; [|done].
    simpl in Hn. injection Hn as <-. simpl in Ha.
    rewrite lookup_alter_is_Some in Ha. by eapply IH.
Qed.

(** X16. For an Address Set of well-formed ranges none of which ends at the
    last address of its family, every address a reachable pool state
    records or maps a domain to is an address of the set. *)
Theorem reachable_state_stays_in_the_set ipset ipp nid ps :
  Forall regular ipset →
  Forall (λ r, ¬ endsFamily r) ipset →
  Reachable ipset ipp →
  perPeerMap ipp !! nid = Some ps →
  (∀ a ww, addrToDomain ps !! a = Some ww → inPool ipset a)
  ∧ (∀ d a, domainToAddr ps !! d = Some a → inPool ipset a).
Proof.
  intros Hreg Hnw Hr Hn.
  assert (Hrec : ∀ a ww, addrToDomain ps !! a = Some ww → inPool ipset a).
  { intros a ww Ha. by eapply (Reachable_records_in_pool ipset ipp). }
  split; [done|]. intros d a Hd.
  destruct (Reachable_poolInv _ _ Hr _ _ Hn) as [Hf _].
  destruct (Hf _ _ Hd) as (ww & Ha & _). by eapply Hrec.
Qed.

Lemma reachable_state_stays_in_the_set_witness :
  (∀ a ww, addrToDomain peerAB !! a = Some ww → inPool poolXY a)
  ∧ (∀ d a, domainToAddr peerAB !! d = Some a → inPool poolXY a).
Proof.
  apply (reachable_state_stays_in_the_set poolXY poolAB 1 peerAB).
  - apply poolXY_regular.
  - apply poolXY_no_wrap.
  - apply poolAB_Reachable.
  - reflexivity.
Defined.

Lemma scanRange_unusable fuel a2d rd r :
  netip.Compare (To r) (From r) = -1 →
  scanRange (S fuel) a2d rd (From r) (To r) = Some None.
Proof. intros Hc. simpl. by rewrite decide_True. Qed.

(** X17. Ranges with an invalid end, or whose last address sorts before
    their first, contribute nothing: the scan gives the same result with
    them removed from the Address Set. *)
Theorem scan_skips_unusable_ranges fuel ps ranges rd :
  unusedIPV4 (S fuel) ps ranges rd
  = unusedIPV4 (S fuel) ps (filter (λ r, usable r = true) ranges) rd.
Proof.
  unfold unusedIPV4. induction ranges as [|r rest IH]; [done|].
  rewrite filter_cons. destruct (decide (usable r = true)) as [Hu|Hu].
  - cbn [unusedIPV4_ranges]. by rewrite IH.
  - rewrite <- IH. cbn [unusedIPV4_ranges]. unfold usable in Hu.
    destruct (netip.IsValid (From r)); [|done].
    destruct (netip.IsValid (To r)); [|done]. simpl in *.
    destruct (Z.eqb_spec (netip.Compare (To r) (From r)) (-1)) as [Hc|Hc];
      [|done].
    by rewrite decide_True.
Qed.

(** * Further properties of the reader *)

Lemma timeToWait_doubles i : 0 ≤ i ≤ 4 → timeToWait i = 100 * 2 ^ i.
Proof.
  intros Hi.
  assert (Hc : i = 0 ∨ i = 1 ∨ i = 2 ∨ i = 3 ∨ i = 4) by lia.
  destruct Hc as [->|[->|[->|[->| ->]]]]; vm_compute; reflexivity.
Qed.

(** The lookup from attempt [n] on, when the entry is first visible at
    attempt [n + j]. *)
Lemma retryDomainLookup_hit view from addr b ww (j : nat) :
  ∀ n, 0 ≤ n → n + Z.of_nat j ≤ 5 →
    (∀ m, n ≤ m < n + Z.of_nat j → absentFrom (view m) from addr) →
    loadDomain (view (n + Z.of_nat j)) from addr = (b, Some ww) →
    let r := retryDomainLookup view from addr n in
    r.1 = Some ww ∧ loads r.2 = S j
    ∧ sleeps r.2 = (λ i, 100 * 2 ^ i) <$> seqZ n (Z.of_nat j).
Proof.
  induction j as [|j IH]; intros n Hn Hk Habs Hhit; simpl.
  - rewrite retryDomainLookup_body.
    replace (n + Z.of_nat 0) with n in Hhit by lia. by rewrite Hhit.
  - rewrite retryDomainLookup_body.
    pose proof (Habs n ltac:(lia)) as Ha. unfold absentFrom in Ha.
    destruct (loadDomain (view n) from addr) as [found [w|]]; simpl in *;
      [done|].
    destruct (decide (n > 4)) as [?|_]; [lia|]. simpl.
    destruct (IH (n + 1)) as (H1 & H2 & H3); [lia|lia| | |].
    + intros m Hm. apply Habs. lia.
    + by replace (n + 1 + Z.of_nat j) with (n + Z.of_nat (S j)) by lia.
    + split_and!; [done|by rewrite H2|].
      rewrite H3, (seqZ_cons n) by lia. simpl.
      rewrite timeToWait_doubles by lia.
      by replace (Z.pred (Z.of_nat (S j))) with (Z.of_nat j) by lia.
Qed.

(** X18. The reader masks the gap between commit and local visibility: when
    the entry becomes visible at attempt number [k] (0 to 5) and not
    before, [DomainForIP] returns its domain after [k + 1] lookups and [k]
    waits of 100, 200, ... milliseconds, and starts the usage refresh for
    that domain. *)
Theorem lookup_succeeds_once_visible `{JSON} `{commandExecutor}
    (view : Z → ConsensusIPPool) (from : NodeID) (addr : Addr)
    (updatedAt : Instant) (k : nat) (b : bool) (ww : whereWhen) :
  (k ≤ 5)%nat →
  (∀ n, 0 ≤ n < Z.of_nat k → absentFrom (view n) from addr) →
  loadDomain (view (Z.of_nat k)) from addr = (b, Some ww) →
  let run := DomainForIP view from addr updatedAt in
  returned run = (Domain ww, true)
  ∧ loads (trace run) = S k
  ∧ sleeps (trace run) = (λ i, 100 * 2 ^ i) <$> seqZ 0 (Z.of_nat k)
  ∧ spawned run = Some (refreshLastUsed from addr (Domain ww) updatedAt).
Proof.
  intros Hk Habs Hhit.
  destruct (retryDomainLookup_hit view from addr b ww k 0)
    as (H1 & H2 & H3); [lia|lia|by intros m ?; apply Habs; lia|done|].
  unfold DomainForIP.
  destruct (retryDomainLookup view from addr 0) as [o tr]. simpl in *.
  by subst o.
Qed.

Lemma lookup_succeeds_once_visible_witness :
  let run := @DomainForIP exampleJSON committingExecutor
               (λ n, if n <? 2 then NewConsensusIPPool poolXY else poolA)
               1 addrX 200 in
  returned run = ("a.example"%string, true)
  ∧ loads (trace run) = 3%nat
  ∧ sleeps (trace run) = (λ i, 100 * 2 ^ i) <$> seqZ 0 (Z.of_nat 2)
  ∧ spawned run
    = Some (@refreshLastUsed exampleJSON committingExecutor
              1 addrX "a.example" 200).
Proof.
  apply (@lookup_succeeds_once_visible exampleJSON committingExecutor
           (λ n, if n <? 2 then NewConsensusIPPool poolXY else poolA)
           1 addrX 200 2 true (mkWhereWhen "a.example" 100)).
  - lia.
  - intros n Hn. destruct (Z.ltb_spec n 2); [reflexivity|lia].
  - reflexivity.
Defined.

Lemma retryDomainLookup_sound view from addr ww (j : nat) :
  ∀ n, n + Z.of_nat j = 5 →
    (retryDomainLookup view from addr n).1 = Some ww →
    ∃ m, n ≤ m ≤ 5 ∧ (loadDomain (view m) from addr).2 = Some ww.
Proof.
  induction j as [|j IH]; intros n Hn; rewrite retryDomainLookup_body.
  - destruct (loadDomain (view n) from addr) as [found [w|]] eqn:Hl; simpl.
    + intros [= <-]. exists n. rewrite Hl. split; [lia|done].
    + by destruct (decide (n > 4)) as [?|?]; [|lia].
  - destruct (loadDomain (view n) from addr) as [found [w|]] eqn:Hl; simpl.
    + intros [= <-]. exists n. rewrite Hl. split; [lia|done].
    + destruct (decide (n > 4)) as [?|_]; [lia|]. simpl.
      intros Hr. destruct (IH (n + 1) ltac:(lia) Hr) as (m & Hm & Hl').
      exists m. split; [lia|done].
Qed.

(** X19. The reader invents nothing: a domain returned by [DomainForIP] as
    found is the domain recorded for that peer and address in the pool
    state seen by one of the six attempts. *)
Theorem lookup_returns_a_recorded_domain `{JSON} `{commandExecutor}
    (view : Z → ConsensusIPPool) (from : NodeID) (addr : Addr)
    (updatedAt : Instant) (d : string) :
  returned (DomainForIP view from addr updatedAt) = (d, true) →
  ∃ n ps ww, 0 ≤ n ≤ 5
             ∧ perPeerMap (view n) !! from = Some ps
             ∧ addrToDomain ps !! addr = Some ww
             ∧ Domain ww = d.
Proof.
  unfold DomainForIP.
  destruct (retryDomainLookup view from addr 0) as [[ww|] tr] eqn:Hr;
    simpl; [|done].
  intros [= <-].
  destruct (retryDomainLookup_sound view from addr ww 5 0)
    as (n & Hn & Hl); [lia|by rewrite Hr|].
  unfold loadDomain in Hl.
  destruct (perPeerMap (view n) !! from) as [ps|] eqn:Hp; [|done].
  by exists n, ps, ww.
Qed.

Lemma lookup_returns_a_recorded_domain_witness :
  ∃ n ps ww, 0 ≤ n ≤ 5
             ∧ perPeerMap ((λ _ : Z, poolA) n) !! 1 = Some ps
             ∧ addrToDomain ps !! addrX = Some ww
             ∧ Domain ww = "a.example"%string.
Proof.
  apply (@lookup_returns_a_recorded_domain exampleJSON committingExecutor
           (λ _, poolA) 1 addrX 200 "a.example").
  vm_compute. reflexivity.
Defined.

(** * The write path end to end *)

(** X20. What the state machine returns for a checkoutAddr entry that
    succeeds, in a reachable state, is the encoding of the address the
    new state records for the domain of the entry. *)
Theorem Apply_returns_the_recorded_address `{JSON} ipset fuel ipp data c args
    ipp' logs r :
  Reachable ipset ipp →
  unmarshalCommand data = inr c →
  Name c = "checkoutAddr"%string →
  unmarshalCheckoutAddrArgs (Args c) = inr args →
  Apply fuel ipp data = Some (ipp', logs, Returned r) →
  Err r = None →
  ∃ a ps', marshalAddr a = inr (Result r)
           ∧ perPeerMap ipp' !! ca_NodeID args = Some ps'
           ∧ domainToAddr ps' !! ca_Domain args = Some a
           ∧ addrToDomain ps' !! a
             = Some (mkWhereWhen (ca_Domain args) (ca_UpdatedAt args)).
Proof.
  intros Hr Hc Hname Hargs. unfold Apply. rewrite Hc, Hname. simpl.
  unfold executeCheckoutAddr. rewrite Hargs.
  destruct (applyCheckoutAddr _ _ _ _ _ _) as [[[ipp1 l1] [a [e|]]]|] eqn:Ha;
    simpl; [by intros [= <- _ <-] [=]| |done].
  destruct (marshalAddr a) as [e|bs] eqn:Hm; simpl;
    [by intros [= <- _ <-] [=]|].
  intros [= <- _ <-] _. simpl.
  destruct (applyCheckoutAddr_post _ _ _ _ _ _ _ _ _
              (Reachable_poolInv _ _ Hr) Ha) as (ps' & Hn & Hd & Hw).
  by exists a, ps'.
Qed.

Lemma Apply_returns_the_recorded_address_witness :
  ∃ a ps', @marshalAddr exampleJSON a = inr [Byte.x0a]
           ∧ perPeerMap poolA !! 1 = Some ps'
           ∧ domainToAddr ps' !! "a.example"%string = Some a
           ∧ addrToDomain ps' !! a = Some (mkWhereWhen "a.example" 100).
Proof.
  apply (@Apply_returns_the_recorded_address exampleJSON poolXY 2
           (NewConsensusIPPool poolXY) [Byte.x00; Byte.x01]
           (mkCommand "checkoutAddr" [Byte.x01])
           (mkCheckoutAddrArgs 1 "a.example" 0 100)
           poolA [] (mkResult None [Byte.x0a])).
  - apply reach_new.
  - reflexivity.
  - reflexivity.
  - reflexivity.
  - vm_compute. reflexivity.
  - reflexivity.
Defined.

(** X21. [IPForDomain] asks for a reuse deadline 48 hours before its clock
    reading, and when the executor hands back what the state machine
    returned for that command and the codec reads back what it wrote, it
    returns what [applyCheckoutAddr] returned: the allocated address, or
    the zero address with the error of the state machine. *)
Theorem IPForDomain_returns_the_allocation
    `{JSON} `{JSONClient} `{commandExecutor}
    (now : Instant) (nid : NodeID) (domain : string) (bs : bytes)
    (fuel : nat) (ipp ipp' : ConsensusIPPool) (logs : list logLine)
    (res : CommandResult) (a : Addr) (e : option error) :
  marshalCheckoutAddrArgs
    (mkCheckoutAddrArgs nid domain (now - 48 * Hour) now) = inr bs →
  unmarshalCheckoutAddrArgs bs
    = inr (mkCheckoutAddrArgs nid domain (now - 48 * Hour) now) →
  (∀ bs', marshalAddr a = inr bs' → unmarshalAddr bs' = inr a) →
  executeCheckoutAddr fuel ipp bs = Some (ipp', logs, res) →
  ExecuteCommand (mkCommand "checkoutAddr" bs) = (res, None) →
  applyCheckoutAddr fuel ipp nid domain (now - 48 * Hour) now
    = Some (ipp', logs, (a, e)) →
  (IPForDomain now nid domain).2
  = match e, marshalAddr a with
    | Some err, _ => (netip.zero, Some err)
    | None, inl err => (netip.zero, Some err)
    | None, inr _ => (a, None)
    end.
Proof.
  intros Hm Hu Hrt Hexec Hsub Happ. unfold IPForDomain.
  replace (now + -48 * Hour) with (now - 48 * Hour) by lia.
  rewrite Hm, Hsub. revert Hexec. unfold executeCheckoutAddr.
  rewrite Hu. simpl. rewrite Happ.
  destruct e as [err|]; [by intros [= <-]|].
  destruct (marshalAddr a) as [err|bs'] eqn:Ha; intros [= <-]; simpl;
    [done|].
  by rewrite (Hrt bs' eq_refl).
Qed.

Lemma IPForDomain_returns_the_allocation_witness :
  (@IPForDomain exampleClient allocatingExecutor
     172800000000100 1 "a.example").2
  = match @None error, @marshalAddr exampleJSON48 addrX with
    | Some err, _ => (netip.zero, Some err)
    | None, inl err => (netip.zero, Some err)
    | None, inr _ => (addrX, None)
    end.
Proof.
  apply (@IPForDomain_returns_the_allocation exampleJSON48 exampleClient
           allocatingExecutor 172800000000100 1 "a.example" [Byte.x00] 2
           (NewConsensusIPPool poolXY)
           (storePeer (NewConsensusIPPool poolXY) 1
              (mkPeerState
                 {[ "a.example"%string := addrX ]}
                 {[ addrX := mkWhereWhen "a.example" 172800000000100 ]}))
           [] (mkResult None [Byte.x0a]) addrX None).
  - reflexivity.
  - reflexivity.
  - intros bs' [= <-]. reflexivity.
  - vm_compute. reflexivity.
  - reflexivity.
  - vm_compute. reflexivity.
Defined.

(** X22. A usage refresh that raft commits never fails: when the executor
    hands back what the state machine returned for the markLastUsed command
    and the codec reads back what it wrote, [markLastUsed] returns nil and
    logs nothing, whatever the pool state (unknown peer, untracked or
    reassigned address included), and the goroutine of [DomainForIP] ends
    without a panic. *)
Theorem committed_refresh_never_fails `{JSON} `{commandExecutor}
    (ipp : ConsensusIPPool) (from : NodeID) (addr : Addr) (domain : string)
    (updatedAt : Instant) (bs : bytes) :
  marshalMarkLastUsedArgs (mkMarkLastUsedArgs from addr domain updatedAt)
    = inr bs →
  unmarshalMarkLastUsedArgs bs
    = inr (mkMarkLastUsedArgs from addr domain updatedAt) →
  ExecuteCommand (mkCommand "markLastUsed" bs)
    = ((executeMarkLastUsed ipp bs).2, None) →
  markLastUsed from addr domain updatedAt = ([], None)
  ∧ refreshLastUsed from addr domain updatedAt = ([], GoDone)
  ∧ (executeMarkLastUsed ipp bs).1.1
    = (applyMarkLastUsed ipp from addr domain updatedAt).1.1.
Proof.
  intros Hm Hu Hsub.
  assert (Hex : (executeMarkLastUsed ipp bs).2 = mkResult None []
                ∧ (executeMarkLastUsed ipp bs).1.1
                  = (applyMarkLastUsed ipp from addr domain updatedAt).1.1).
  { unfold executeMarkLastUsed. rewrite Hu. simpl.
    assert (He : (applyMarkLastUsed ipp from addr domain updatedAt).2 = None).
    { unfold applyMarkLastUsed.
      destruct (perPeerMap ipp !! from) as [ps|]; [|done].
      destruct (addrToDomain ps !! addr) as [ww|]; [|done].
      destruct (negb _); [done|]. by destruct (After _ _). }
    destruct (applyMarkLastUsed ipp from addr domain updatedAt)
      as [[ipp1 l1] e]. simpl in He. by subst e. }
  destruct Hex as [Hres Hst]. rewrite Hres in Hsub.
  assert (Hmark : markLastUsed from addr domain updatedAt = ([], None)).
  { unfold markLastUsed. by rewrite Hm, Hsub. }
  split_and!; [done| |done]. unfold refreshLastUsed. by rewrite Hmark.
Qed.

Lemma committed_refresh_never_fails_witness :
  @markLastUsed exampleJSON committingExecutor 1 addrX "a.example" 200
    = ([], None)
  ∧ @refreshLastUsed exampleJSON committingExecutor 1 addrX "a.example" 200
    = ([], GoDone)
  ∧ (@executeMarkLastUsed exampleJSON poolOutOfSync [Byte.x01]).1.1
    = (applyMarkLastUsed poolOutOfSync 1 addrX "a.example" 200).1.1.
Proof.
  apply (@committed_refresh_never_fails exampleJSON committingExecutor
           poolOutOfSync 1 addrX "a.example" 200 [Byte.x01]).
  - reflexivity.
  - reflexivity.
  - reflexivity.
Defined.

(** * The scan at the end of a family, in general *)

Lemma Next_last a : wfAddr a → val a = maxVal (netip.z a) → netip.Next a = netip.zero.
Proof.
  destruct a as [h l k].
  unfold wfAddr, val, maxVal, netip.Next, netip.addOne, netip.Is4,
    netip.two64, netip.two32.
  simpl. destruct k; simpl; [done| |].
  - intros [-> Hl] Hv. assert (l = 0xffffffffffff) as -> by lia. reflexivity.
  - intros [Hh Hl] Hv.
    assert (h = 2 ^ 64 - 1 ∧ l = 2 ^ 64 - 1) as [-> ->] by nia. reflexivity.
Qed.

Lemma Compare_zero a : wfAddr a → netip.Compare a netip.zero = 1.
Proof.
  unfold wfAddr, netip.Compare, netip.BitLen. simpl.
  by destruct (netip.z a).
Qed.

Lemma scanRange_wraps a2d rd toIP (k : nat) :
  ∀ ip,
    wfAddr ip → wfAddr toIP → netip.z ip = netip.z toIP →
    val toIP = val ip + Z.of_nat k →
    val toIP = maxVal (netip.z toIP) →
    (∀ a, wfAddr a → netip.z a = netip.z toIP →
          val ip ≤ val a ≤ val toIP → held a2d rd a) →
    a2d !! netip.zero = None →
    ∀ fuel, (S k < fuel)%nat →
      scanRange fuel a2d rd ip toIP
        = Some (Some (netip.zero, false, EmptyString)).
Proof.
  induction k as [|k IH]; intros ip Hip Hto Hzi Hv Hmax Hheld Hzero
                                 [|fuel] Hf; try lia; simpl.
  - case_decide as Hcmp; [apply Compare_lt in Hcmp; [lia|done|done|by symmetry]|].
    destruct (Hheld ip) as (ww & -> & Hge); [done..|lia|].
    unfold Before. destruct (Z.ltb_spec (LastUsed ww) rd); [lia|].
    rewrite Next_last; [|done|rewrite Hzi; lia].
    destruct fuel as [|fuel]; [lia|]. simpl.
    rewrite decide_False by (rewrite Compare_zero; done).
    by rewrite Hzero.
  - case_decide as Hcmp; [apply Compare_lt in Hcmp; [lia|done|done|by symmetry]|].
    destruct (Hheld ip) as (ww & -> & Hge); [done..|lia|].
    unfold Before. destruct (Z.ltb_spec (LastUsed ww) rd); [lia|].
    destruct (Next_succ ip) as (Hn1 & Hn2 & Hn3); [done|rewrite Hzi; lia|].
    apply IH; try done; try congruence; try lia.
    intros a Ha Hza Hva. apply Hheld; [done..|lia].
Qed.

(** X23. At the last address of a family the scan wraps: when the ranges
    before [r] hold no candidate, [r] ends at 255.255.255.255 (or at the
    last IPv6 address) and all its addresses are recorded and not expired,
    the scan does not report exhaustion and does not go on to the ranges
    behind [r]: it returns the zero Addr as a free address, provided the
    zero Addr itself is not recorded yet. *)
Theorem scan_wraps_to_the_zero_address ps rd pre r post :
  Forall (passedOver (addrToDomain ps) rd) pre →
  regular r →
  endsFamily r →
  (∀ a, inRange r a → held (addrToDomain ps) rd a) →
  addrToDomain ps !! netip.zero = None →
  ∃ fuel0, ∀ fuel, (fuel0 ≤ fuel)%nat →
    unusedIPV4 fuel ps (pre ++ r :: post) rd
      = Some (netip.zero, false, EmptyString, None).
Proof.
  intros Hpre (Hf & Ht & Hz & Hle) Hend Hheld Hzero. unfold unusedIPV4.
  induction Hpre as [|p pre Hp _ [f1 IH]].
  - exists (S (S (Z.to_nat (val (To r) - val (From r))))).
    intros fuel Hfuel. simpl. rewrite !wfAddr_valid by done. simpl.
    rewrite (scanRange_wraps _ _ (To r)
               (Z.to_nat (val (To r) - val (From r)))); try done; try lia.
    intros a Ha Hza Hva. by apply Hheld.
  - destruct (scanRange_passedOver _ _ p Hp) as [f2 Hf2].
    exists (f1 `max` f2)%nat. intros fuel Hfuel. simpl.
    destruct Hp as ((Hpf & Hpt & _) & _).
    rewrite !wfAddr_valid by done. simpl.
    rewrite Hf2 by lia. apply IH. lia.
Qed.

Lemma scan_wraps_to_the_zero_address_witness :
  ∃ fuel0, ∀ fuel, (fuel0 ≤ fuel)%nat →
    unusedIPV4 fuel peerLast ([] ++ mkRange addrLast addrLast :: poolXY) 50
      = Some (netip.zero, false, EmptyString, None).
Proof.
  apply (scan_wraps_to_the_zero_address peerLast 50 []
           (mkRange addrLast addrLast) poolXY).
  - constructor.
  - split_and!; try (by apply wfAddr_AddrFrom4); by vm_compute.
  - by vm_compute.
  - intros a Ha.
    assert (a = addrLast) as ->.
    { apply inPool_poolLast. exists (mkRange addrLast addrLast).
      split; [apply list_elem_of_here|done]. }
    exists (mkWhereWhen "x.example" 100). split; [reflexivity|simpl; lia].
  - reflexivity.
Defined.

(** * C7: replay is deterministic *)

(** ** Running the programs *)

Lemma run_bind {A B : Type} env (p : prog A) (f : A → prog B) w :
  runProg env (p ≫= f) w
  = match runProg env p w with
    | RunDone a w' => runProg env (f a) w'
    | RunPanic msg w' => RunPanic msg w'
    | RunOutOfFuel => RunOutOfFuel
    end.
Proof.
  unfold mbind, prog_bind. revert w.
  induction p as [a|X e k IH|msg|]; intros w; simpl; try done.
Qed.

Lemma run_Vis {A X : Type} env (e : effect X) (k : X → prog A) w :
  runProg env (Vis e k) w
  = runProg env (k (handle env e w).1) (handle env e w).2.
Proof. reflexivity. Qed.

Lemma run_trigger_bind {A X : Type} env (e : effect X) (k : X → prog A) w :
  runProg env (trigger e ≫= k) w
  = runProg env (k (handle env e w).1) (handle env e w).2.
Proof. reflexivity. Qed.

(** ** No handler turns to the outside world *)

Lemma worldFree_bind {A B : Type} (p : prog A) (f : A → prog B) :
  worldFree p → (∀ a, worldFree (f a)) → worldFree (p ≫= f).
Proof.
  unfold mbind, prog_bind. intros Hp Hf.
  induction p as [a|X e k IH|msg|]; simpl in *; try done.
  destruct Hp as [He Hk]. split; [done|]. intros x. by apply IH.
Qed.

Lemma worldFree_trigger {X : Type} (e : effect X) :
  internal e → worldFree (trigger e).
Proof. by split. Qed.

Ltac world_free :=
  repeat first
    [ apply worldFree_bind; [|intros ?]
    | apply worldFree_trigger; exact I
    | exact I ].

Lemma scanRangeP_worldFree fuel nid rd toIP ip :
  worldFree (scanRangeP fuel nid rd ip toIP).
Proof.
  revert ip. induction fuel as [|fuel IH]; intros ip; simpl; [done|].
  case_decide; [done|]. split; [done|].
  intros [ww|]; simpl; [|done]. by destruct (Before _ _).
Qed.

Lemma unusedIPV4_rangesP_worldFree fuel nid ranges rd :
  worldFree (unusedIPV4_rangesP fuel nid ranges rd).
Proof.
  induction ranges as [|r rest IH]; simpl; [done|].
  destruct (negb _ || negb _); [done|].
  apply worldFree_bind; [apply scanRangeP_worldFree|].
  by intros [[[? ?] ?]|].
Qed.

Lemma allocateP_worldFree fuel nid d rd t :
  worldFree (allocateP fuel nid d rd t).
Proof.
  unfold allocateP, unusedIPV4P.
  apply worldFree_bind.
  - apply worldFree_bind; [by apply worldFree_trigger|].
    intros ranges. apply unusedIPV4_rangesP_worldFree.
  - intros [[[a w] prev] [e|]]; [done|]. destruct w; world_free.
Qed.

Lemma applyCheckoutAddrP_worldFree fuel nid d rd t :
  worldFree (applyCheckoutAddrP fuel nid d rd t).
Proof.
  unfold applyCheckoutAddrP.
  apply worldFree_bind; [by apply worldFree_trigger|]. intros ok.
  apply worldFree_bind; [destruct ok; world_free|]. intros _.
  apply worldFree_bind; [by apply worldFree_trigger|].
  intros [existing|]; [|apply allocateP_worldFree].
  apply worldFree_bind; [by apply worldFree_trigger|].
  intros [ww|]; [world_free|].
  apply worldFree_bind; [by apply worldFree_trigger|]. intros _.
  apply allocateP_worldFree.
Qed.

Lemma applyMarkLastUsedP_worldFree from addr d t :
  worldFree (applyMarkLastUsedP from addr d t).
Proof.
  unfold applyMarkLastUsedP.
  apply worldFree_bind; [by apply worldFree_trigger|]. intros ok.
  destruct (negb ok); [world_free|].
  apply worldFree_bind; [by apply worldFree_trigger|].
  intros [ww|]; [|done].
  destruct (negb _); [done|]. destruct (After _ _); [done|]. world_free.
Qed.

(** ** The programs do what the functions of the model compute *)

Lemma peerOf_storePeer ipp nid ps : peerOf (storePeer ipp nid ps) nid = ps.
Proof. unfold peerOf. simpl. by rewrite lookup_insert_eq. Qed.

Lemma storePeer_twice ipp nid ps1 ps2 :
  storePeer (storePeer ipp nid ps1) nid ps2 = storePeer ipp nid ps2.
Proof. unfold storePeer. simpl. by rewrite insert_insert_eq. Qed.

Lemma updatePeer_storePeer ipp nid ps f :
  updatePeer (storePeer ipp nid ps) nid f = storePeer ipp nid (f ps).
Proof. unfold updatePeer. by rewrite peerOf_storePeer, storePeer_twice. Qed.

Lemma setPool_same w : setPool w (w_pool w) = w.
Proof. by destruct w. Qed.

Lemma run_scanRangeP env fuel nid rd toIP :
  ∀ ip w,
    runProg env (scanRangeP fuel nid rd ip toIP) w
    = match scanRange fuel (addrToDomain (peerOf (w_pool w) nid)) rd ip toIP
      with
      | None => RunOutOfFuel
      | Some r => RunDone r w
      end.
Proof.
  induction fuel as [|fuel IH]; intros ip w; simpl; [done|].
  case_decide; [done|]. rewrite run_Vis. simpl.
  destruct (addrToDomain (peerOf (w_pool w) nid) !! ip) as [ww|]; [|done].
  destruct (Before _ _); [done|]. apply IH.
Qed.

Lemma run_unusedIPV4_rangesP env fuel nid ranges rd w :
  runProg env (unusedIPV4_rangesP fuel nid ranges rd) w
  = match unusedIPV4_ranges fuel (addrToDomain (peerOf (w_pool w) nid))
            ranges rd with
    | None => RunOutOfFuel
    | Some r => RunDone r w
    end.
Proof.
  induction ranges as [|r rest IH]; simpl; [done|].
  destruct (negb _ || negb _); [done|].
  rewrite run_bind, run_scanRangeP.
  by destruct (scanRange _ _ _ _ _) as [[[[? ?] ?]|]|].
Qed.

Lemma run_allocateP env fuel nid d rd t w :
  runProg env (allocateP fuel nid d rd t) w
  = match allocate fuel (w_pool w) nid (peerOf (w_pool w) nid) d rd t with
    | None => RunOutOfFuel
    | Some (ipp', r) => RunDone r (setPool w ipp')
    end.
Proof.
  unfold allocateP, allocate, unusedIPV4P, unusedIPV4.
  rewrite run_bind. simpl. rewrite run_unusedIPV4_rangesP.
  destruct (unusedIPV4_ranges _ _ _ _) as [[[[a u] prev] [e|]]|]; simpl;
    [by rewrite setPool_same| |done].
  destruct u; simpl; rewrite ?run_Vis; simpl; unfold setPool, updatePeer;
    simpl; repeat (rewrite peerOf_storePeer || rewrite storePeer_twice);
    done.
Qed.

Ltac run_step :=
  repeat first [rewrite run_trigger_bind | rewrite run_Vis]; simpl.

Lemma run_applyCheckoutAddrP env fuel nid d rd t w :
  runProg env (applyCheckoutAddrP fuel nid d rd t) w
  = match applyCheckoutAddr fuel (w_pool w) nid d rd t with
    | None => RunOutOfFuel
    | Some (ipp', logs, r) =>
        RunDone r (mkWorld ipp' (w_log w ++ (inl <$> logs)) (w_asked w))
    end.
Proof.
  unfold applyCheckoutAddrP, applyCheckoutAddr. run_step.
  destruct (perPeerMap (w_pool w) !! nid) as [ps|] eqn:Hn.
  - run_step. run_step. unfold peerOf at 1. rewrite Hn. simpl.
    destruct (domainToAddr ps !! d) as [existing|].
    + run_step. unfold peerOf at 1. rewrite Hn. simpl.
      destruct (addrToDomain ps !! existing) as [ww|].
      * run_step. unfold setPool, updatePeer, peerOf.
        rewrite Hn. simpl. by rewrite app_nil_r.
      * rewrite run_Vis, run_allocateP. simpl. unfold peerOf.
        rewrite Hn.
        by destruct (allocate _ _ _ _ _ _ _) as [[ipp' r]|];
          unfold setPool; simpl.
    + rewrite run_allocateP. unfold peerOf. rewrite Hn.
      destruct (allocate _ _ _ _ _ _ _) as [[ipp' r]|]; [|done]. simpl.
      unfold setPool. by rewrite app_nil_r.
  - run_step. run_step.
    rewrite peerOf_storePeer. simpl. rewrite lookup_empty.
    rewrite run_allocateP. simpl. rewrite peerOf_storePeer.
    destruct (allocate _ _ _ _ _ _ _) as [[ipp' r]|]; [|done]. simpl.
    unfold setPool. simpl. by rewrite app_nil_r.
Qed.

Lemma run_applyMarkLastUsedP env from addr d t w :
  runProg env (applyMarkLastUsedP from addr d t) w
  = let '(ipp', logs, err) := applyMarkLastUsed (w_pool w) from addr d t in
    RunDone err (mkWorld ipp' (w_log w ++ (inl <$> logs)) (w_asked w)).
Proof.
  unfold applyMarkLastUsedP, applyMarkLastUsed. simpl.
  destruct (perPeerMap (w_pool w) !! from) as [ps|] eqn:Hn; simpl; [|done].
  unfold peerOf at 1. rewrite Hn. simpl.
  destruct (addrToDomain ps !! addr) as [ww|]; simpl;
    [|by rewrite app_nil_r; destruct w].
  destruct (negb _); simpl; [by rewrite app_nil_r; destruct w|].
  destruct (After _ _); simpl; [by rewrite app_nil_r; destruct w|].
  unfold setPool, updatePeer, peerOf. rewrite Hn. simpl.
  by rewrite app_nil_r.
Qed.

(** An effect that stays inside the replica is answered the same way in
    every outside world. *)
Lemma handle_internal env1 env2 {X : Type} (e : effect X) w :
  internal e → handle env1 e w = handle env2 e w.
Proof. by destruct e. Qed.

(** A program that never turns to the outside world runs the same way in
    every outside world. *)
Lemma run_worldFree {A : Type} env1 env2 (p : prog A) w :
  worldFree p → runProg env1 p w = runProg env2 p w.
Proof.
  revert w. induction p as [a|X e k IH|msg|]; intros w Hp; simpl;
    try done.
  destruct Hp as [He Hk]. rewrite (handle_internal env1 env2 e w He).
  by apply IH.
Qed.

(** ** The scans end *)

Lemma scanRange_total a2d rd toIP (k : nat) :
  ∀ ip,
    wfAddr ip → wfAddr toIP → netip.z ip = netip.z toIP →
    val toIP + 1 = val ip + Z.of_nat k →
    val toIP < maxVal (netip.z toIP) →
    ∀ fuel, (k < fuel)%nat → is_Some (scanRange fuel a2d rd ip toIP).
Proof.
  induction k as [|k IH]; intros ip Hip Hto Hzi Hv Hmax [|fuel] Hf;
    try lia; simpl.
  - case_decide as Hcmp; [done|]. exfalso. apply Hcmp.
    apply Compare_lt; [done..|by symmetry|lia].
  - case_decide as Hcmp; [done|].
    destruct (a2d !! ip) as [ww|]; [|done].
    destruct (Before _ _); [done|].
    destruct (Next_succ ip) as (Hn1 & Hn2 & Hn3); [done|rewrite Hzi; lia|].
    apply IH; try done; try congruence; lia.
Qed.

Lemma scanFuel_cons r rest :
  (Z.to_nat (val (To r) + 1 - val (From r)) < scanFuel (r :: rest))%nat
  ∧ (scanFuel rest ≤ scanFuel (r :: rest))%nat.
Proof. unfold scanFuel. simpl. lia. Qed.

Lemma unusedIPV4_ranges_total a2d rd ranges fuel :
  Forall regular ranges →
  Forall (λ r, ¬ endsFamily r) ranges →
  (scanFuel ranges ≤ fuel)%nat →
  is_Some (unusedIPV4_ranges fuel a2d ranges rd).
Proof.
  intros Hreg. induction Hreg as [|r rest Hr Hrest IH]; intros Hnw Hf;
    simpl; [done|].
  inversion Hnw as [|? ? Hend Hnw']; subst.
  destruct (scanFuel_cons r rest) as [Hlt Hle].
  destruct (negb _ || negb _); [apply IH; [done|lia]|].
  destruct Hr as (Hfw & Htw & Hz & Hord).
  pose proof (wfAddr_bounds _ Htw) as (_ & _ & Hmax).
  destruct (scanRange_total a2d rd (To r)
              (Z.to_nat (val (To r) + 1 - val (From r))) (From r))
    with (fuel := fuel) as [s ->];
    [done|done|done|lia|unfold endsFamily in Hend; lia|lia|].
  destruct s as [[[ip u] p]|]; [done|]. apply IH; [done|lia].
Qed.

Lemma allocate_total fuel ipp nid ps d rd t :
  Forall regular (IPSet ipp) →
  Forall (λ r, ¬ endsFamily r) (IPSet ipp) →
  (scanFuel (IPSet ipp) ≤ fuel)%nat →
  is_Some (allocate fuel ipp nid ps d rd t).
Proof.
  intros Hreg Hnw Hf. unfold allocate, unusedIPV4.
  destruct (unusedIPV4_ranges_total (addrToDomain ps) rd (IPSet ipp) fuel)
    as [[[[a u] prev] [e|]] ->]; done.
Qed.

Lemma applyCheckoutAddr_total fuel ipp nid d rd t :
  Forall regular (IPSet ipp) →
  Forall (λ r, ¬ endsFamily r) (IPSet ipp) →
  (scanFuel (IPSet ipp) ≤ fuel)%nat →
  is_Some (applyCheckoutAddr fuel ipp nid d rd t).
Proof.
  intros Hreg Hnw Hf. unfold applyCheckoutAddr.
  destruct (perPeerMap ipp !! nid) as [ps|].
  - destruct (domainToAddr ps !! d) as [existing|].
    + destruct (addrToDomain ps !! existing) as [ww|]; [done|].
      by destruct (allocate_total fuel ipp nid ps d rd t) as [q ->].
    + by destruct (allocate_total fuel ipp nid ps d rd t) as [q ->].
  - simpl. rewrite lookup_empty.
    by destruct (allocate_total fuel (storePeer ipp nid newPeerState) nid
                   newPeerState d rd t) as [q ->].
Qed.

Section ProgramFacts.
Context `{codec : JSON}.

Lemma ApplyP_worldFree fuel data : worldFree (ApplyP fuel data).
Proof.
  unfold ApplyP. destruct (unmarshalCommand data) as [err|c]; [done|].
  destruct (String.eqb _ _).
  - unfold executeCheckoutAddrP.
    destruct (unmarshalCheckoutAddrArgs _) as [err|args]; [done|].
    apply worldFree_bind; [apply applyCheckoutAddrP_worldFree|].
    intros [a [e|]]; [done|]. by destruct (marshalAddr a).
  - destruct (String.eqb _ _); [|done]. unfold executeMarkLastUsedP.
    destruct (unmarshalMarkLastUsedArgs _) as [err|args]; [done|].
    apply worldFree_bind; [apply applyMarkLastUsedP_worldFree|].
    by intros [e|].
Qed.

(** The program of [Apply] does to the pool what the function [Apply]
    computes, adds its lines to the log, and asks the world nothing. *)
Lemma run_ApplyP env fuel data w :
  runProg env (ApplyP fuel data) w
  = match Apply fuel (w_pool w) data with
    | None => RunOutOfFuel
    | Some (ipp', logs, Returned r) =>
        RunDone r (mkWorld ipp' (w_log w ++ (inl <$> logs)) (w_asked w))
    | Some (ipp', logs, Panicked msg) =>
        RunPanic msg (mkWorld ipp' (w_log w ++ (inl <$> logs)) (w_asked w))
    end.
Proof.
  unfold ApplyP, Apply.
  destruct (unmarshalCommand data) as [err|c]; simpl;
    [by rewrite app_nil_r; destruct w|].
  destruct (String.eqb _ _).
  - unfold executeCheckoutAddrP, executeCheckoutAddr.
    destruct (unmarshalCheckoutAddrArgs _) as [err|args];
      [by simpl; rewrite app_nil_r; destruct w|].
    rewrite run_bind, run_applyCheckoutAddrP.
    destruct (applyCheckoutAddr _ _ _ _ _ _) as [[[ipp' logs] [a [e|]]]|];
      simpl; [done| |done].
    by destruct (marshalAddr a).
  - destruct (String.eqb _ _); simpl; [|by rewrite app_nil_r; destruct w].
    unfold executeMarkLastUsedP, executeMarkLastUsed.
    destruct (unmarshalMarkLastUsedArgs _) as [err|args];
      [by simpl; rewrite app_nil_r; destruct w|].
    rewrite run_bind, run_applyMarkLastUsedP.
    by destruct (applyMarkLastUsed _ _ _ _ _) as [[ipp' logs] [e|]].
Qed.

(** Replaying with more fuel, and against another outside world, changes
    nothing in a replay that completes. *)
Lemma replayRun_stable env1 env2 fuel1 fuel2 entries :
  (fuel1 ≤ fuel2)%nat →
  ∀ w r, replayRun env1 fuel1 w entries = Some r →
         replayRun env2 fuel2 w entries = Some r.
Proof.
  intros Hle. induction entries as [|data rest IH]; intros w r; simpl;
    [done|].
  rewrite !run_ApplyP.
  destruct (Apply fuel1 (w_pool w) data) as [a|] eqn:Ha; [|done].
  rewrite (Apply_mono _ _ _ _ _ Hle Ha).
  destruct a as [[ipp' logs] [res|msg]]; [|done].
  destruct (replayRun env1 fuel1 _ rest) as [q|] eqn:Hq; [|done].
  by rewrite (IH _ _ Hq).
Qed.


(** Replaying against another outside world changes nothing at all. *)
Lemma replayRun_env env1 env2 fuel entries w :
  replayRun env1 fuel w entries = replayRun env2 fuel w entries.
Proof.
  revert w. induction entries as [|data rest IH]; intros w; simpl; [done|].
  rewrite (run_worldFree env1 env2 _ w (ApplyP_worldFree fuel data)).
  destruct (runProg env2 (ApplyP fuel data) w) as [r w'|msg w'|]; [|done..].
  by rewrite IH.
Qed.

(** The pool, the halting and the results of a replay of the programs are
    those of [replay]. *)
Lemma replayRun_replay env fuel entries w :
  (λ r, (w_pool r.1.1, r.1.2, r.2)) <$> replayRun env fuel w entries
  = replay fuel (w_pool w) entries.
Proof.
  revert w. induction entries as [|data rest IH]; intros w; simpl; [done|].
  rewrite run_ApplyP.
  destruct (Apply fuel (w_pool w) data) as [[[ipp' logs] [res|msg]]|];
    [|done..].
  rewrite <- (IH (mkWorld ipp' (w_log w ++ (inl <$> logs)) (w_asked w))).
  by destruct (replayRun env fuel _ rest) as [[[w'' halted] rs]|].
Qed.

Lemma Apply_total fuel ipp data :
  Forall regular (IPSet ipp) →
  Forall (λ r, ¬ endsFamily r) (IPSet ipp) →
  (scanFuel (IPSet ipp) ≤ fuel)%nat →
  is_Some (Apply fuel ipp data).
Proof.
  intros Hreg Hnw Hf. unfold Apply.
  destruct (unmarshalCommand data) as [err|c]; [done|].
  destruct (String.eqb _ _); [|by destruct (String.eqb _ _)].
  unfold executeCheckoutAddr.
  destruct (unmarshalCheckoutAddrArgs _) as [err|args]; [done|].
  destruct (applyCheckoutAddr_total fuel ipp (ca_NodeID args) (ca_Domain args)
              (ca_ReuseDeadline args) (ca_UpdatedAt args) Hreg Hnw Hf)
    as [[[ipp' logs] [a [e|]]] ->]; simpl; [done|].
  by destruct (marshalAddr a).
Qed.

Lemma replay_total ipSet fuel entries :
  Forall regular ipSet →
  Forall (λ r, ¬ endsFamily r) ipSet →
  (scanFuel ipSet ≤ fuel)%nat →
  ∀ ipp, Reachable ipSet ipp → is_Some (replay fuel ipp entries).
Proof.
  intros Hreg Hnw Hf.
  induction entries as [|data rest IH]; intros ipp Hr; simpl; [done|].
  pose proof (Reachable_IPSet _ _ Hr) as Hset.
  destruct (Apply_total fuel ipp data) as [[[ipp' logs] out] Ha];
    [by rewrite Hset..|].
  rewrite Ha. destruct out as [res|msg]; [|done].
  destruct (IH ipp') as [[[ipp'' halted] rs] ->]; [|done].
  by eapply Apply_Reachable.
Qed.

(** C7. The command-apply logic is deterministic.  With the handlers
    written as programs over the things the Go code touches, (1) no path
    of [Apply] reads the clock, sleeps, draws a random number or calls out
    through the consensus executor: it touches the replicated maps, the
    range list and the log only; (2) what a call of [Apply] does to a
    replica is what the function [Apply] computes from the pool state and
    the bytes of the entry, whatever the outside world of the replica
    answers, and it leaves the count of questions asked where it was;
    (3) when one replica completes the replay of a list of entries from
    the empty pool state, every replica that replays the same list with
    at least as many steps for its scans completes it too, in any outside
    world, with the same pool state, the same log, the same halting and
    the same results; (4) over an Address Set of regular ranges none of
    which ends at the last address of its family, [scanFuel] steps are
    enough: two replicas in two outside worlds both complete the replay,
    and end in the same state, which is the one [replay] computes. *)
Theorem replay_deterministic (ipSet : list IPRange) (entries : list bytes) :
  (∀ fuel data, worldFree (ApplyP fuel data))
  ∧ (∀ env fuel data w,
       runProg env (ApplyP fuel data) w
       = match Apply fuel (w_pool w) data with
         | None => RunOutOfFuel
         | Some (ipp', logs, Returned r) =>
             RunDone r (mkWorld ipp' (w_log w ++ (inl <$> logs)) (w_asked w))
         | Some (ipp', logs, Panicked msg) =>
             RunPanic msg
                      (mkWorld ipp' (w_log w ++ (inl <$> logs)) (w_asked w))
         end)
  ∧ (∀ env1 env2 fuel1 fuel2 r,
       (fuel1 ≤ fuel2)%nat →
       replayRun env1 fuel1 (freshWorld ipSet) entries = Some r →
       replayRun env2 fuel2 (freshWorld ipSet) entries = Some r)
  ∧ (Forall regular ipSet →
     Forall (λ r, ¬ endsFamily r) ipSet →
     ∀ env1 env2 fuel1 fuel2,
       (scanFuel ipSet ≤ fuel1)%nat → (scanFuel ipSet ≤ fuel2)%nat →
       ∃ r, replayRun env1 fuel1 (freshWorld ipSet) entries = Some r
            ∧ replayRun env2 fuel2 (freshWorld ipSet) entries = Some r
            ∧ replay fuel1 (NewConsensusIPPool ipSet) entries
              = Some (w_pool r.1.1, r.1.2, r.2)).
Proof.
  split_and!.
  - apply ApplyP_worldFree.
  - apply run_ApplyP.
  - intros env1 env2 fuel1 fuel2 r Hle H1.
    rewrite (replayRun_env env2 env1). by eapply replayRun_stable.
  - intros Hreg Hnw env1 env2 fuel1 fuel2 Hf1 Hf2.
    destruct (replay_total ipSet (scanFuel ipSet) entries Hreg Hnw
                (le_n _) (NewConsensusIPPool ipSet) (reach_new _)) as [q Hq].
    pose proof (replayRun_replay env1 (scanFuel ipSet) entries
                  (freshWorld ipSet)) as Hrun.
    simpl in Hrun. rewrite Hq in Hrun.
    apply fmap_Some in Hrun as (r & Hr & ->).
    exists r. split_and!.
    + by apply (replayRun_stable env1 env1 _ _ _ Hf1).
    + by apply (replayRun_stable env1 env2 _ _ _ Hf2).
    + by apply (replay_mono _ _ _ _ _ Hf1).
Qed.

End ProgramFacts.

(** ** The callers of raft do turn to the outside world *)

(** [IPForDomain] starts by reading the clock. *)
Lemma IPForDomainP_reads_the_clock `{client : JSONClient} nid domain :
  ¬ worldFree (IPForDomainP nid domain).
Proof. by intros [[] _]. Qed.

(** What it read goes into the arguments of the command it submits: the
    run is [IPForDomain] at the instant the clock of the replica shows,
    with the executor the replica finds next. *)
Lemma run_IPForDomainP `{client : JSONClient} env nid domain w :
  ∃ k : nat,
    (1 ≤ k)%nat
    ∧ runProg env (IPForDomainP nid domain) w
      = let '(logs, r) :=
          @IPForDomain client (executorAt env (S (w_asked w)))
                       (env_now env (w_asked w)) nid domain in
        RunDone r (mkWorld (w_pool w) (w_log w ++ (inr <$> logs))
                           (w_asked w + k)).
Proof.
  unfold IPForDomainP, IPForDomain. rewrite run_trigger_bind. simpl.
  destruct (marshalCheckoutAddrArgs _) as [err|bs].
  { exists 1%nat. split; [done|]. simpl. rewrite app_nil_r.
    unfold asked. by rewrite Nat.add_1_r. }
  exists 2%nat. split; [lia|]. run_step.
  replace (w_asked w + 2)%nat with (S (S (w_asked w))) by lia.
  destruct (env_exec env (S (w_asked w)) _) as [result [err|]]; simpl;
    [done|].
  destruct (Err result) as [e|]; simpl; [done|].
  by destruct (unmarshalAddr _); simpl; rewrite app_nil_r.
Qed.

(** [markLastUsed] calls out through the consensus executor whenever its
    arguments encode. *)
Lemma markLastUsedP_asks_raft `{codec : JSON} nid addr domain lastUsed bs :
  marshalMarkLastUsedArgs (mkMarkLastUsedArgs nid addr domain lastUsed)
    = inr bs →
  ¬ worldFree (markLastUsedP nid addr domain lastUsed).
Proof. unfold markLastUsedP. intros ->. by intros [[] _]. Qed.

(** Two outside worlds, two results: the programs of the callers are not
    functions of the pool state and their arguments. *)
Lemma IPForDomainP_depends_on_the_world :
  runProg envQuiet (@IPForDomainP exampleClient 1 "a.example") (freshWorld poolXY)
  ≠ runProg envBusy (@IPForDomainP exampleClient 1 "a.example")
                (freshWorld poolXY).
Proof. by vm_compute. Qed.

(** Two checkouts of "a.example" by peer 1 under the example codec,
    replayed by two replicas whose clocks, random sources and executors
    differ, with different numbers of steps for the scans. *)
Lemma replay_deterministic_witness :
  ∃ r,
    @replayRun exampleJSON envQuiet 3 (freshWorld poolXY)
               [[Byte.x00; Byte.x01]; [Byte.x00; Byte.x01]] = Some r
    ∧ @replayRun exampleJSON envBusy 9 (freshWorld poolXY)
                 [[Byte.x00; Byte.x01]; [Byte.x00; Byte.x01]] = Some r
    ∧ @replay exampleJSON 3 (NewConsensusIPPool poolXY)
              [[Byte.x00; Byte.x01]; [Byte.x00; Byte.x01]]
      = Some (w_pool r.1.1, r.1.2, r.2).
Proof.
  apply (proj2 (proj2 (proj2
           (@replay_deterministic exampleJSON poolXY
              [[Byte.x00; Byte.x01]; [Byte.x00; Byte.x01]])))).
  - apply poolXY_regular.
  - apply poolXY_no_wrap.
  - vm_compute. lia.
  - vm_compute. lia.
Defined.
